(** * AItuber runtime services: cache store, idle/talking scheduler, playback synchronizer

    A shallow embedding of [services/cache_manager.py],
    [services/video_manager.py] and [services/sync_manager.py], and the
    properties of these three components.

    Conventions.
    - [time.time()] is an argument [now : Z] of every operation that reads the
      clock; timestamps, time-to-live and durations are integers of one unit.
    - A Python [dict] whose iteration order is observable (the cache, scanned
      by [min]) is an insertion-ordered association list; a [dict] that is only
      looked up (the idle catalog, the video metadata) is a [gmap].
    - An operation that can raise returns a [result]; an operation whose body
      contains no raising step is a total function of plain type. *)

From Stdlib Require Import ZArith Lia.
From stdpp Require Import base option list gmap strings pretty.

Local Open Scope Z_scope.

(** ** Exceptions shared by the three components *)

Inductive exn : Type :=
| ValueError
| KeyError
| IndexError
| TypeError
| OSError.

Inductive result (A : Type) : Type :=
| Ok (a : A)
| Raise (e : exn).

Arguments Ok {A} a.
Arguments Raise {A} e.

Definition is_ok {A} (r : result A) : bool :=
  match r with Ok _ => true | Raise _ => false end.

(** ** An error monad for the [try] blocks *)

Definition result_bind {A B} (f : A -> result B) (r : result A) : result B :=
  match r with Ok a => f a | Raise e => Raise e end.

#[global] Instance result_mbind : MBind result := @result_bind.
#[global] Instance result_mret : MRet result := @Ok.

(** [o] or raise [e] *)
Definition or_raise {A} (e : exn) (o : option A) : result A :=
  match o with Some a => Ok a | None => Raise e end.

(** Values read from a JSON configuration or carried by a metadata dict. *)
Inductive pyval : Type :=
| PInt (z : Z)
| PStr (s : string).

(** [l[i]] on a Python list: a negative index counts from the end. *)
Definition py_index {A} (l : list A) (i : Z) : result A :=
  let n := Z.of_nat (length l) in
  if (0 <=? i) && (i <? n) then or_raise IndexError (l !! Z.to_nat i)
  else if (- n <=? i) && (i <? 0) then or_raise IndexError (l !! Z.to_nat (i + n))
  else Raise IndexError.

(** ** services/cache_manager.py *)

Module Cache.

Section Store.

(** The cached payload ([Any] in the source). *)
Context {V : Type}.

(** [{'value': value, 'timestamp': time.time()}] *)
Record entry : Type := Entry { value : V; timestamp : Z }.

(** [self.cache : Dict[str, Dict]], in insertion order. *)
Definition dict : Type := list (string * entry).

(** [json.dump(self.cache, f)]: the text of a mapping. *)
Variable json_dumps : dict -> string.

(** [json.load(f)] read as a mapping of entries: [None] when parsing raises
    or the document is not a mapping; an item is [None] when
    [now - v['timestamp']] raises on it (not a dict, no timestamp, or one that
    is not a number). The other items are the [{value, timestamp}] records
    that [save_cache] writes. *)
Variable json_load : string -> option (list (string * option entry)).

(** *** Dictionary primitives *)

(** [d[k]] / [k in d] *)
Fixpoint dict_get (k : string) (d : dict) : option entry :=
  match d with
  | [] => None
  | (k', e) :: d' => if decide (k' = k) then Some e else dict_get k d'
  end.

(** [del d[k]] *)
Fixpoint dict_del (k : string) (d : dict) : dict :=
  match d with
  | [] => []
  | (k', e) :: d' =>
      if decide (k' = k) then dict_del k d' else (k', e) :: dict_del k d'
  end.

(** [d[k] = e]: an existing key keeps its position, a new one goes last. *)
Fixpoint dict_set (k : string) (e : entry) (d : dict) : dict :=
  match d with
  | [] => [(k, e)]
  | (k', e') :: d' =>
      if decide (k' = k) then (k, e) :: d' else (k', e') :: dict_set k e d'
  end.

(** [min(items, key=...)]: the first item of least key; [None] stands for the
    [ValueError] raised on an empty sequence. *)
Definition py_min {A} (key : A -> Z) (items : list A) : option A :=
  match items with
  | [] => None
  | x :: rest =>
      Some (fold_left (λ best y, if key y <? key best then y else best) rest x)
  end.

(** *** The store and its two files *)

Record CacheManager : Type := Mk {
  cache : dict;
  max_size : Z;
  ttl : Z
}.

Definition with_cache (self : CacheManager) (c : dict) : CacheManager :=
  {| cache := c; max_size := max_size self; ttl := ttl self |}.

(** Content of [cache_<name>.json] and [cache_<name>_backup.json];
    [None] when the file does not exist. *)
Record disk : Type := Disk {
  cache_file : option string;
  backup_file : option string
}.

(** How writing the new file goes: it succeeds, [open] raises, or
    [json.dump] raises after [written] reached the file. *)
Inductive write_outcome : Type :=
| WriteOk
| OpenFails
| DumpFails (written : string).

(** The I/O failures met by one [save_cache] call. *)
Record faults : Type := Faults {
  backup_rename_fails : bool;
  write : write_outcome;
  restore_rename_fails : bool
}.

Definition no_faults : faults :=
  {| backup_rename_fails := false; write := WriteOk;
     restore_rename_fails := false |}.

Inductive save_outcome : Type :=
| Saved          (* the try block ran to its end *)
| SaveFailed     (* an exception was logged by the handler *)
| SaveRaised.    (* the rename inside the handler raised *)

(** The [try] block of [save_cache]: [true] when no exception was raised. *)
Definition save_try (f : faults) (self : CacheManager) (d : disk)
  : bool * disk :=
  let renamed :=
    match cache_file d with
    | Some old =>
        if backup_rename_fails f then (false, d)
        else (true, {| cache_file := None; backup_file := Some old |})
    | None => (true, d)
    end in
  if renamed.1 then
    match write f with
    | WriteOk =>
        (true, {| cache_file := Some (json_dumps (cache self));
                  backup_file := backup_file renamed.2 |})
    | OpenFails => (false, renamed.2)
    | DumpFails written =>
        (false, {| cache_file := Some written;
                   backup_file := backup_file renamed.2 |})
    end
  else renamed.

Definition save_cache (f : faults) (self : CacheManager) (d : disk)
  : save_outcome * CacheManager * disk :=
  let '(ok, d1) := save_try f self d in
  if ok then (Saved, self, d1)
  else
    match backup_file d1 with
    | Some b =>
        if restore_rename_fails f then (SaveRaised, self, d1)
        else (SaveFailed, self, {| cache_file := Some b; backup_file := None |})
    | None => (SaveFailed, self, d1)
    end.

(** *** load_cache *)

(** The dict comprehension of [load_cache]; [None] when it raises. *)
Fixpoint fresh_items (now ttl_ : Z) (items : list (string * option entry))
  : option dict :=
  match items with
  | [] => Some []
  | (_, None) :: _ => None
  | (k, Some e) :: rest =>
      match fresh_items now ttl_ rest with
      | None => None
      | Some kept =>
          Some (if now - timestamp e <? ttl_ then (k, e) :: kept else kept)
      end
  end.

Definition load_cache (now : Z) (d : disk) (self : CacheManager)
  : CacheManager :=
  match cache_file d with
  | None => self
  | Some text =>
      match json_load text with
      | None => with_cache self []
      | Some items =>
          match fresh_items now (ttl self) items with
          | None => with_cache self []
          | Some kept => with_cache self kept
          end
      end
  end.

(** [CacheManager.__init__] *)
Definition init (now : Z) (d : disk) (max_size_ ttl_ : Z) : CacheManager :=
  load_cache now d {| cache := []; max_size := max_size_; ttl := ttl_ |}.

(** *** get, set, clear_expired *)

Definition get (now : Z) (key : string) (self : CacheManager)
  : option V * CacheManager :=
  match dict_get key (cache self) with
  | Some e =>
      if now - timestamp e <? ttl self then (Some (value e), self)
      else (None, with_cache self (dict_del key (cache self)))
  | None => (None, self)
  end.

(** The eviction step at the head of [set]. *)
Definition evict_oldest (self : CacheManager) : result CacheManager :=
  if Z.of_nat (length (cache self)) >=? max_size self then
    match py_min (λ x : string * entry, timestamp x.2) (cache self) with
    | None => Raise ValueError
    | Some oldest => Ok (with_cache self (dict_del oldest.1 (cache self)))
    end
  else Ok self.

Definition set (now : Z) (f : faults) (key : string) (v : V)
    (self : CacheManager) (d : disk)
  : result unit * CacheManager * disk :=
  match evict_oldest self with
  | Raise e => (Raise e, self, d)
  | Ok s1 =>
      let s2 :=
        with_cache s1
          (dict_set key {| value := v; timestamp := now |} (cache s1)) in
      match save_cache f s2 d with
      | (SaveRaised, s3, d') => (Raise OSError, s3, d')
      | (_, s3, d') => (Ok (), s3, d')
      end
  end.

Definition clear_expired (now : Z) (f : faults) (self : CacheManager)
    (d : disk)
  : result unit * CacheManager * disk :=
  let expired :=
    (filter (λ p : string * entry, now - timestamp p.2 >= ttl self)
       (cache self)).*1 in
  let s1 := with_cache self (foldl (λ c k, dict_del k c) (cache self) expired) in
  match expired with
  | [] => (Ok (), s1, d)
  | _ :: _ =>
      match save_cache f s1 d with
      | (SaveRaised, s2, d') => (Raise OSError, s2, d')
      | (_, s2, d') => (Ok (), s2, d')
      end
  end.

(** *** Runs of [set] *)

Record set_call : Type := SetCall {
  call_now : Z;
  call_faults : faults;
  call_key : string;
  call_value : V
}.

Definition do_set (c : set_call) (st : CacheManager * disk)
  : CacheManager * disk :=
  let '(_, s, d) :=
    set (call_now c) (call_faults c) (call_key c) (call_value c) st.1 st.2 in
  (s, d).

(** The store after each call of a sequence, in call order. *)
Fixpoint set_trace (calls : list set_call) (st : CacheManager * disk)
  : list CacheManager :=
  match calls with
  | [] => []
  | c :: rest => (do_set c st).1 :: set_trace rest (do_set c st)
  end.

End Store.

Arguments entry : clear implicits.
Arguments dict : clear implicits.
Arguments CacheManager : clear implicits.
Arguments faults : clear implicits.
Arguments set_call : clear implicits.

End Cache.

(** ** Entries as a backing file can hold them

    [load_cache] reads [v['timestamp']] of an item and nothing else, so it
    keeps an item that has a timestamp and no ['value'] key. A store that may
    hold such items is a [CacheManager (option V)]: the value of an entry is
    [None] when the key is missing. The entries that [set] writes have it. *)

Module Loaded.

Section Loaded.

Context {V : Type}.

(** [get] on such a store: [entry['value']] raises [KeyError] on an entry
    without the key. *)
Definition get (now : Z) (key : string) (self : Cache.CacheManager (option V))
  : result (option V) * Cache.CacheManager (option V) :=
  match Cache.dict_get key (Cache.cache self) with
  | Some entry =>
      if now - Cache.timestamp entry <? Cache.ttl self then
        (match Cache.value entry with
         | Some v => Ok (Some v)
         | None => Raise KeyError
         end, self)
      else
        (Ok None,
         Cache.with_cache self (Cache.dict_del key (Cache.cache self)))
  | None => (Ok None, self)
  end.

(** A store whose entries all have their value, as a store of this kind. *)
Definition written_entry (e : Cache.entry V) : Cache.entry (option V) :=
  {| Cache.value := Some (Cache.value e);
     Cache.timestamp := Cache.timestamp e |}.

Definition written (s : Cache.CacheManager V) : Cache.CacheManager (option V) :=
  {| Cache.cache := prod_map id written_entry <$> Cache.cache s;
     Cache.max_size := Cache.max_size s;
     Cache.ttl := Cache.ttl s |}.

End Loaded.

End Loaded.

(** ** services/video_manager.py *)

Module Video.

Section Scheduler.

(** [video_dir / name] of pathlib. *)
Variable joinpath : string -> string -> string.

(** [config/video_config.json] as [preload_videos] needs it: both catalogs
    are present, the idle pattern may be missing. A pattern step is the dict
    [{'video': key, 'repeat': n}]. *)
Record config : Type := Config {
  idle_pattern : option (list (gmap string pyval));
  idle : gmap string string;
  talking : list string
}.

Record VideoManager : Type := Mk {
  video_dir : string;
  cfg : config;
  current_idle_index : Z;
  current_repeat : Z
}.

Definition with_cursor (self : VideoManager) (index rep : Z) : VideoManager :=
  {| video_dir := video_dir self; cfg := cfg self;
     current_idle_index := index; current_repeat := rep |}.

(** [d[k]] with a key read from JSON *)
Definition idle_lookup (d : gmap string string) (k : pyval) : result string :=
  match k with
  | PStr s => or_raise KeyError (d !! s)
  | PInt _ => Raise KeyError
  end.

(** [v - 1] *)
Definition minus_one (v : pyval) : result Z :=
  match v with
  | PInt z => Ok (z - 1)
  | PStr _ => Raise TypeError
  end.

(** The [try] block of [get_next_idle_video]. *)
Definition next_idle_try (self : VideoManager)
  : result (string * bool * VideoManager) :=
  patterns ← or_raise KeyError (idle_pattern (cfg self));
  pattern ← py_index patterns (current_idle_index self);
  key ← or_raise KeyError (pattern !! "video");
  video_name ← idle_lookup (idle (cfg self)) key;
  let video_path := joinpath (video_dir self) video_name in
  rep ← or_raise KeyError (pattern !! "repeat");
  last ← minus_one rep;
  if current_repeat self >=? last then
    Ok (video_path, true,
        with_cursor self
          ((current_idle_index self + 1) `mod` Z.of_nat (length patterns)) 0)
  else
    Ok (video_path, false,
        with_cursor self (current_idle_index self) (current_repeat self + 1)).

(** The [except] handler of [get_next_idle_video]. *)
Definition idle_fallback (self : VideoManager) : result (string * bool) :=
  name ← or_raise KeyError (idle (cfg self) !! "00");
  Ok (joinpath (video_dir self) name, true).

Definition get_next_idle_video (self : VideoManager)
  : result (string * bool) * VideoManager :=
  match next_idle_try self with
  | Ok (path, is_pattern_end, self') => (Ok (path, is_pattern_end), self')
  | Raise _ => (idle_fallback self, self)
  end.

Definition talking_try (text_length : Z) (self : VideoManager) : result string :=
  let talking_videos := talking (cfg self) in
  video_name ←
    (if text_length <? 50 then py_index talking_videos 0
     else if text_length <? 100 then py_index talking_videos 1
     else py_index talking_videos 2);
  Ok (joinpath (video_dir self) video_name).

Definition get_talking_video (text_length : Z) (self : VideoManager)
  : result string :=
  match talking_try text_length self with
  | Ok path => Ok path
  | Raise _ =>
      name ← py_index (talking (cfg self)) 0;
      Ok (joinpath (video_dir self) name)
  end.

(** [n] successive calls of [get_next_idle_video]: the results in call order
    and the manager left behind. *)
Fixpoint idle_calls (n : nat) (self : VideoManager)
  : list (result (string * bool)) * VideoManager :=
  match n with
  | O => ([], self)
  | S n' =>
      let '(r, self') := get_next_idle_video self in
      let '(rs, self'') := idle_calls n' self' in
      (r :: rs, self'')
  end.

End Scheduler.

End Video.

(** ** services/sync_manager.py

    asyncio runs one coroutine at a time and switches only at an [await] that
    suspends. The model has the caller of the public methods, the playback
    tasks made by [asyncio.create_task], and the event loop's choice of what
    runs next as an explicit [event]. Public calls come from one caller, as in
    [run_monitoring], which awaits each [process_comment] before the next. *)

Module Sync.

(** [video_data : Dict[str, Any]] and [audio_data : bytes] *)
Abbreviation video_data := (gmap string pyval).
Abbreviation audio_data := (list Byte.byte).

(** Where the coroutine [_play_synced] of a task stands. *)
Inductive task_state : Type :=
| Created                     (* made by create_task, body not entered *)
| WaitVideo                   (* suspended in video_queue.get() *)
| WaitAudio (v : video_data)  (* suspended in audio_queue.get() *)
| Sleeping (wake : Z) (v : video_data) (a : audio_data)
                              (* suspended in asyncio.sleep until [wake] *)
| Done.

Record task : Type := Task {
  state : task_state;
  must_cancel : bool          (* cancel() was called and not yet delivered *)
}.

Record SyncManager : Type := Mk {
  current_task : option nat;  (* index into the loop's tasks *)
  video_queue : list video_data;
  audio_queue : list audio_data;
  is_playing : bool;
  current_video_path : option pyval;
  current_audio_data : option audio_data;
  start_time : Z
}.

(** Where the caller stands: outside any call, or suspended in
    [stop_current_playback] on behalf of [sync_media] or [stop]. *)
Inductive caller_pc : Type :=
| Free
| AwaitSync (t : nat) (v : video_data) (a : audio_data)
| AwaitStop (t : nat).

Record world : Type := World {
  self : SyncManager;
  tasks : list task;
  caller : caller_pc;
  now : Z;
  returned : list bool        (* values returned by sync_media, latest first *)
}.

(** [SyncManager.__init__] in a fresh event loop at time [t0]. *)
Definition init (t0 : Z) : world :=
  {| self := {| current_task := None; video_queue := []; audio_queue := [];
                is_playing := false; current_video_path := None;
                current_audio_data := None; start_time := 0 |};
     tasks := []; caller := Free; now := t0; returned := [] |}.

(** *** Field updates *)

Definition with_self (w : world) (m : SyncManager) : world :=
  {| self := m; tasks := tasks w; caller := caller w; now := now w;
     returned := returned w |}.

Definition with_tasks (w : world) (ts : list task) : world :=
  {| self := self w; tasks := ts; caller := caller w; now := now w;
     returned := returned w |}.

Definition with_caller (w : world) (pc : caller_pc) : world :=
  {| self := self w; tasks := tasks w; caller := pc; now := now w;
     returned := returned w |}.

Definition set_is_playing (b : bool) (m : SyncManager) : SyncManager :=
  {| current_task := current_task m; video_queue := video_queue m;
     audio_queue := audio_queue m; is_playing := b;
     current_video_path := current_video_path m;
     current_audio_data := current_audio_data m; start_time := start_time m |}.

Definition set_session (p : option pyval) (a : option audio_data) (t : Z)
    (m : SyncManager) : SyncManager :=
  {| current_task := current_task m; video_queue := video_queue m;
     audio_queue := audio_queue m; is_playing := is_playing m;
     current_video_path := p; current_audio_data := a; start_time := t |}.

Definition set_queues (vq : list video_data) (aq : list audio_data)
    (m : SyncManager) : SyncManager :=
  {| current_task := current_task m; video_queue := vq; audio_queue := aq;
     is_playing := is_playing m; current_video_path := current_video_path m;
     current_audio_data := current_audio_data m; start_time := start_time m |}.

Definition set_current_task (t : nat) (m : SyncManager) : SyncManager :=
  {| current_task := Some t; video_queue := video_queue m;
     audio_queue := audio_queue m; is_playing := is_playing m;
     current_video_path := current_video_path m;
     current_audio_data := current_audio_data m; start_time := start_time m |}.

Definition set_state (t : nat) (s : task_state) (w : world) : world :=
  with_tasks w (<[t := {| state := s; must_cancel := false |}]> (tasks w)).

(** [task.done()] *)
Definition done (w : world) (t : nat) : bool :=
  match tasks w !! t with
  | Some {| state := Done |} => true
  | Some _ => false
  | None => true
  end.

(** [task.cancel()] *)
Definition cancel (t : nat) (w : world) : world :=
  match tasks w !! t with
  | Some tk =>
      with_tasks w (<[t := {| state := state tk; must_cancel := true |}]> (tasks w))
  | None => w
  end.

(** *** _play_synced *)

(** The [finally] block. *)
Definition reset_session (w : world) : world :=
  with_self w (set_session None None 0 (self w)).

(** [except asyncio.CancelledError], then [finally]; the task is done. *)
Definition on_cancelled (t : nat) (w : world) : world :=
  set_state t Done (reset_session (with_self w (set_is_playing false (self w)))).

(** [except Exception], then [finally]; the task is done. *)
Definition on_error (t : nat) (w : world) : world :=
  set_state t Done (reset_session (with_self w (set_is_playing false (self w)))).

(** The statements after [asyncio.sleep] returns, then [finally]. *)
Definition on_complete (t : nat) (w : world) : world :=
  set_state t Done
    (reset_session
       (with_self w (set_session None None (start_time (self w))
                       (set_is_playing false (self w))))).

(** From the update of the playback fields to the suspension in
    [asyncio.sleep(video_duration)], which raises on a non-number and yields
    once on a delay of zero or less. *)
Definition install_and_sleep (t : nat) (v : video_data) (a : audio_data)
    (w : world) : world :=
  let w1 := with_self w (set_session (v !! "path") (Some a) (now w) (self w)) in
  match default (PInt 0) (v !! "duration") with
  | PInt video_duration =>
      set_state t (Sleeping (now w + Z.max 0 video_duration) v a) w1
  | PStr _ => on_error t w1
  end.

(** From [audio_queue.get()] on. *)
Definition play_from_audio (t : nat) (v : video_data) (w : world) : world :=
  match audio_queue (self w) with
  | [] => set_state t (WaitAudio v) w
  | a :: aq =>
      install_and_sleep t v a
        (with_self w (set_queues (video_queue (self w)) aq (self w)))
  end.

(** [_play_synced] from its first statement, [video_queue.get()], on. *)
Definition play_synced (t : nat) (w : world) : world :=
  match video_queue (self w) with
  | [] => set_state t WaitVideo w
  | v :: vq =>
      play_from_audio t v
        (with_self w (set_queues vq (audio_queue (self w)) (self w)))
  end.

(** One turn of task [t] on the event loop: a pending cancellation is thrown
    into the coroutine at its suspension point (a coroutine that never started
    ends without entering its [try]); otherwise the coroutine goes on if what
    it waits for is there. *)
Definition run_task (t : nat) (w : world) : world :=
  match tasks w !! t with
  | None => w
  | Some tk =>
      match state tk with
      | Done => w
      | Created =>
          if must_cancel tk then set_state t Done w else play_synced t w
      | WaitVideo =>
          if must_cancel tk then on_cancelled t w else play_synced t w
      | WaitAudio v =>
          if must_cancel tk then on_cancelled t w else play_from_audio t v w
      | Sleeping wake _ _ =>
          if must_cancel tk then on_cancelled t w
          else if wake <=? now w then on_complete t w
          else w
      end
  end.

(** *** The public methods *)

(** [clear_queues] *)
Definition clear_queues (w : world) : world :=
  with_self w (set_queues [] [] (self w)).

(** [stop_current_playback]: when a task is running, cancel it and suspend the
    caller at [pc]; otherwise go on with [k]. *)
Definition stop_current_playback (pc : nat -> caller_pc) (k : world -> world)
    (w : world) : world :=
  match current_task (self w) with
  | Some t =>
      if done w t then k w else with_caller (cancel t w) (pc t)
  | None => k w
  end.

(** [sync_media] after [stop_current_playback] returned. *)
Definition sync_media_rest (v : video_data) (a : audio_data) (w : world)
  : world :=
  let w1 := clear_queues w in
  let w2 := with_self w1 (set_queues (video_queue (self w1) ++ [v])
                            (audio_queue (self w1) ++ [a]) (self w1)) in
  let t := length (tasks w2) in
  let w3 := with_tasks w2 (tasks w2 ++ [{| state := Created; must_cancel := false |}]) in
  let w4 := with_self w3 (set_is_playing true (set_current_task t (self w3))) in
  {| self := self w4; tasks := tasks w4; caller := Free; now := now w4;
     returned := true :: returned w4 |}.

(** [stop] after [stop_current_playback] returned. *)
Definition stop_rest (w : world) : world :=
  let w1 := clear_queues w in
  with_caller (with_self w1 (set_is_playing false (self w1))) Free.

Definition sync_media (v : video_data) (a : audio_data) (w : world) : world :=
  stop_current_playback (λ t, AwaitSync t v a) (sync_media_rest v a) w.

Definition stop (w : world) : world :=
  stop_current_playback AwaitStop stop_rest w.

Record status : Type := Status {
  st_is_playing : bool;
  st_current_video : option pyval;
  st_has_audio : bool;
  st_elapsed_time : Z
}.

Definition get_playback_status (w : world) : status :=
  {| st_is_playing := is_playing (self w);
     st_current_video := current_video_path (self w);
     st_has_audio := bool_decide (is_Some (current_audio_data (self w)));
     st_elapsed_time :=
       if start_time (self w) >? 0 then now w - start_time (self w) else 0 |}.

(** *** The event loop *)

Inductive event : Type :=
| CallSyncMedia (v : video_data) (a : audio_data)
| CallStop
| RunTask (t : nat)
| ResumeCaller
| Elapse (d : nat).

Definition step (e : event) (w : world) : world :=
  match e with
  | CallSyncMedia v a =>
      match caller w with
      | Free => sync_media v a w
      | _ => w
      end
  | CallStop =>
      match caller w with
      | Free => stop w
      | _ => w
      end
  | RunTask t => run_task t w
  | ResumeCaller =>
      match caller w with
      | Free => w
      | AwaitSync t v a => if done w t then sync_media_rest v a w else w
      | AwaitStop t => if done w t then stop_rest w else w
      end
  | Elapse d =>
      {| self := self w; tasks := tasks w; caller := caller w;
         now := now w + Z.of_nat d; returned := returned w |}
  end.

Definition run (evs : list event) (w : world) : world :=
  foldl (λ w e, step e w) w evs.

(** The state of the task the manager holds; [Done] when it holds none. *)
Definition current_state (w : world) : task_state :=
  match current_task (self w) with
  | Some t =>
      match tasks w !! t with
      | Some tk => state tk
      | None => Done
      end
  | None => Done
  end.

(** *** The single-session invariant *)

(** The playback fields as the [finally] block leaves them. *)
Definition session_idle (m : SyncManager) : Prop :=
  current_video_path m = None ∧ current_audio_data m = None ∧ start_time m = 0.

(** The playback fields as the session playing [v] with [a] installs them. *)
Definition session_of (m : SyncManager) (v : video_data) (a : audio_data) : Prop :=
  is_playing m = true ∧ current_video_path m = v !! "path"
  ∧ current_audio_data m = Some a.

(** Every task that is not done is the one the manager holds. *)
Definition others_done (ts : list task) (cur : option nat) : Prop :=
  ∀ i tk, ts !! i = Some tk -> state tk ≠ Done -> cur = Some i.

(** The fields a task in state [s] leaves in the manager. *)
Definition fields_fit (s : task_state) (m : SyncManager) : Prop :=
  match s with
  | Sleeping _ v a => session_of m v a
  | _ => session_idle m
  end.

(** A suspended caller waits for the task the manager holds. *)
Definition caller_fits (pc : caller_pc) (m : SyncManager) : Prop :=
  match pc with
  | Free => True
  | AwaitSync t _ _ | AwaitStop t => current_task m = Some t
  end.

Definition single_session (w : world) : Prop :=
  others_done (tasks w) (current_task (self w))
  ∧ fields_fit (current_state w) (self w)
  ∧ (current_state w ≠ Done -> is_playing (self w) = true)
  ∧ caller_fits (caller w) (self w).

End Sync.

(** ** Sample instances used by the worked examples *)

Module Sample.

(** A line-oriented rendering of a cache of strings, standing in for the JSON
    text. *)
Definition dumps (c : Cache.dict string) : string :=
  foldr (λ p acc,
           p.1 +:+ "=" +:+ Cache.value p.2 +:+ "@" +:+
           pretty (Cache.timestamp p.2) +:+ ";" +:+ acc)
        "" c.

(** A reader for the texts of the worked examples: two texts written by
    [dumps], one of them cut short, and a mapping with an item that is no
    entry. *)
Definition load (text : string)
  : option (list (string * option (Cache.entry string))) :=
  if decide (text = "a=x@1;b=y@2;") then
    Some [("a", Some (Cache.Entry "x" 1)); ("b", Some (Cache.Entry "y" 2))]
  else if decide (text = "a=x@1;b=?;") then
    Some [("a", Some (Cache.Entry "x" 1)); ("b", None)]
  else None.

(** [video_dir / name] for relative names. *)
Definition joinpath (dir name : string) : string := dir +:+ "/" +:+ name.

Definition step (video : string) (repeat_ : Z) : gmap string pyval :=
  {[ "video" := PStr video; "repeat" := PInt repeat_ ]}.

Definition catalog : Video.config :=
  {| Video.idle_pattern := Some [step "00" 2; step "01" 1];
     Video.idle := {[ "00" := "idle0.mp4"; "01" := "idle1.mp4" ]};
     Video.talking := ["short.mp4"; "medium.mp4"; "long.mp4"] |}.

(** A catalog whose only pattern step names a video that is not configured and
    that has no entry under the default key. *)
Definition catalog_without_default : Video.config :=
  {| Video.idle_pattern := Some [step "02" 1];
     Video.idle := {[ "01" := "idle1.mp4" ]};
     Video.talking := [] |}.

Definition talk : gmap string pyval :=
  {[ "path" := PStr "videos/short.mp4"; "duration" := PInt 5 ]}.

Definition still : gmap string pyval :=
  {[ "path" := PStr "videos/still.jpg" ]}.

Definition voice : list Byte.byte := [Byte.x52; Byte.x49; Byte.x46; Byte.x46].

End Sample.

(** Stores, files, failures and schedulers of the worked examples. *)

Definition two_entries : Cache.CacheManager string :=
  {| Cache.cache := [("a", Cache.Entry "x" 1); ("b", Cache.Entry "y" 2)];
     Cache.max_size := 2; Cache.ttl := 3600 |}.

Definition no_files : Cache.disk :=
  {| Cache.cache_file := None; Cache.backup_file := None |}.

Definition rename_fault : Cache.faults :=
  {| Cache.backup_rename_fails := true; Cache.write := Cache.WriteOk;
     Cache.restore_rename_fails := false |}.

Definition dump_fault (written : string) : Cache.faults :=
  {| Cache.backup_rename_fails := false; Cache.write := Cache.DumpFails written;
     Cache.restore_rename_fails := false |}.

Definition three_sets : list (Cache.set_call string) :=
  [Cache.SetCall 10 Cache.no_faults "c" "z";
   Cache.SetCall 11 (dump_fault "c=") "a" "w";
   Cache.SetCall 12 rename_fault "d" "v"].

Definition scheduler (c : Video.config) (index rep : Z) : Video.VideoManager :=
  {| Video.video_dir := "videos"; Video.cfg := c;
     Video.current_idle_index := index; Video.current_repeat := rep |}.

(** A reader for a backing file whose second item has a timestamp and no
    value. *)
Definition load_item_without_value (text : string)
  : option (list (string * option (Cache.entry (option string)))) :=
  if decide (text = "a=x@1;b=@5;") then
    Some [("a", Some (Cache.Entry (Some "x") 1));
          ("b", Some (Cache.Entry None 5))]
  else None.

(** ** What a well-formed idle pattern asks for *)

Module Plan.

Section Plan.

Variable joinpath : string -> string -> string.

(** The file name and the repeat count a pattern step stands for in a
    catalog; [None] when a lookup of [get_next_idle_video] would raise on it. *)
Definition step_plan (c : Video.config) (st : gmap string pyval)
  : option (string * Z) :=
  match st !! "video", st !! "repeat" with
  | Some (PStr key), Some (PInt r) =>
      match Video.idle c !! key with
      | Some name => Some (name, r)
      | None => None
      end
  | _, _ => None
  end.

(** Calls spent on a step of repeat count [r], starting from
    [current_repeat = 0]. *)
Definition plays (r : Z) : nat := Z.to_nat (Z.max 1 r).

(** What those calls return. *)
Definition step_results (dir : string) (p : string * Z)
  : list (result (string * bool)) :=
  replicate (plays p.2 - 1) (Ok (joinpath dir p.1, false))
    ++ [Ok (joinpath dir p.1, true)].

(** The bucket of [get_talking_video] as an index into the talking clips. *)
Definition tier (text_length : Z) : nat :=
  if text_length <? 50 then 0 else if text_length <? 100 then 1 else 2.

End Plan.

End Plan.

(** ** The single-slot hand-over of the synchronizer *)

Module Slot.
Import Sync.

(** The two queues hold the same number of items, one at most; a task that
    has not started finds its media there, and no task is left waiting on a
    queue. *)
Definition queues_fit (w : world) : Prop :=
  length (video_queue (self w)) = length (audio_queue (self w))
  ∧ (length (video_queue (self w)) <= 1)%nat
  ∧ match current_state w with
    | Created => video_queue (self w) ≠ []
    | WaitVideo | WaitAudio _ => False
    | Sleeping _ _ _ | Done => True
    end.

(** The number [asyncio.sleep] is given for the metadata [v], when it is
    one. *)
Definition duration_of (v : video_data) : option Z :=
  match default (PInt 0) (v !! "duration") with
  | PInt d => Some d
  | PStr _ => None
  end.

(** Cancel-and-wait as the event loop runs it for a caller: the call, the
    turn of the task the manager holds, the resumption of the caller. *)
Definition held_task (w : world) : nat := default 0%nat (current_task (self w)).

Definition stop_and_wait (w : world) : world :=
  run [CallStop; RunTask (held_task w); ResumeCaller] w.

Definition sync_media_and_wait (v : video_data) (a : audio_data) (w : world)
  : world :=
  run [CallSyncMedia v a; RunTask (held_task w); ResumeCaller] w.

End Slot.

(** ** services/youtube_service.py: the request spacing *)

Module YouTube.

(** The fields [_rate_limit] works on. *)
Record YouTubeService : Type := Mk {
  last_request_time : Z;
  min_request_interval : Z
}.

(** [_rate_limit] entered when the clock reads [now]: its second reading of
    the clock, and the service. The second reading comes [lag] after the first
    one and the time [time.sleep] was asked for, if it was called. *)
Definition rate_limit (lag : nat) (now : Z) (self : YouTubeService)
  : Z * YouTubeService :=
  let time_since_last_request := now - last_request_time self in
  let slept :=
    if time_since_last_request <? min_request_interval self
    then min_request_interval self - time_since_last_request
    else 0 in
  let second_reading := now + slept + Z.of_nat lag in
  (second_reading,
   {| last_request_time := second_reading;
      min_request_interval := min_request_interval self |}).

(** Requests made one after the other, each entered at the clock reading and
    with the sleep lag given: the times stamped on them. *)
Fixpoint request_times (entries : list (Z * nat)) (self : YouTubeService)
  : list Z :=
  match entries with
  | [] => []
  | (now, lag) :: rest =>
      let '(t, self') := rate_limit lag now self in
      t :: request_times rest self'
  end.

End YouTube.

(** ** services/video_manager.py: asset metadata *)

Module Assets.

Section Assets.

(** [video_dir / name], [path.name] and [path.exists()] of pathlib. *)
Variable joinpath : string -> string -> string.
Variable path_name : string -> string.
Variable path_exists : string -> bool.

(** [get_video_info], which reads the file with OpenCV: the metadata dict, or
    [None] where it returns [None]. *)
Variable get_video_info : string -> option (gmap string pyval).

(** [self.video_info_cache] *)
Abbreviation info_cache := (gmap string (gmap string pyval)).

(** [if info:] on what [get_video_info] returned. *)
Definition truthy_info (o : option (gmap string pyval))
  : option (gmap string pyval) :=
  match o with
  | Some info => if decide (info = ∅) then None else Some info
  | None => None
  end.

(** What [preload_videos] finds out about a file name. *)
Definition resolved (video_dir filename : string) : option (gmap string pyval) :=
  if path_exists (joinpath video_dir filename)
  then truthy_info (get_video_info (joinpath video_dir filename))
  else None.

(** One round of either loop of [preload_videos]. *)
Definition preload_one (video_dir : string) (cache : info_cache)
    (filename : string) : info_cache :=
  let path := joinpath video_dir filename in
  if path_exists path then
    match truthy_info (get_video_info path) with
    | Some info => <[filename := info]> cache
    | None => cache
    end
  else cache.

(** The loops of [preload_videos] over file names in the order given. *)
Definition preload_names (video_dir : string) (names : list string)
    (cache : info_cache) : info_cache :=
  foldl (preload_one video_dir) cache names.

(** The file names the loops of [preload_videos] and [check_status] go
    through: the values of the idle catalog, then the talking clips. The
    catalog is a dict whose order is not kept here; neither loop depends on
    it, [get_video_info] and [path.exists()] being functions of the path. *)
Definition configured_names (c : Video.config) : list string :=
  (map_to_list (Video.idle c)).*2 ++ Video.talking c.

Definition preload_videos (video_dir : string) (c : Video.config)
    (cache : info_cache) : info_cache :=
  preload_names video_dir (configured_names c) cache.

Definition prepare_video (video_path : string) (cache : info_cache)
  : option (gmap string pyval) * info_cache :=
  if path_exists video_path then
    let video_name := path_name video_path in
    match cache !! video_name with
    | Some cached => (Some (<["path" := PStr video_path]> cached), cache)
    | None =>
        match truthy_info (get_video_info video_path) with
        | Some info =>
            let info' := <["path" := PStr video_path]> info in
            (Some info', <[video_name := info']> cache)
        | None => (None, cache)
        end
    end
  else (None, cache).

(** [check_status]: the first missing file ends the loops with [False]. *)
Definition check_status (video_dir : string) (c : Video.config) : bool :=
  forallb (λ filename, path_exists (joinpath video_dir filename))
    (configured_names c).

End Assets.

End Assets.

(** ** main.py: process_comment *)

(** [len] of a [str]: the number of its characters. A string of the model is
    the UTF-8 text of the [str], in which a character is one byte that is not
    a continuation byte, followed by its continuation bytes (the bytes
    [10xxxxxx]). *)
Definition continuation_byte (a : Ascii.ascii) : bool :=
  match a with
  | Ascii.Ascii _ _ _ _ _ _ b6 b7 => b7 && negb b6
  end.

Fixpoint py_len (s : string) : nat :=
  match s with
  | EmptyString => 0%nat
  | String a rest =>
      if continuation_byte a then py_len rest else S (py_len rest)
  end.

Module Main.

Section Main.

Variable joinpath : string -> string -> string.
Variable path_name : string -> string.
Variable path_exists : string -> bool.
Variable get_video_info : string -> option (gmap string pyval).

(** [json.dump] of the two caches. *)
Variable dump_responses : Cache.dict string -> string.
Variable dump_audio : Cache.dict (list Byte.byte) -> string.

(** [comment_data]: the keys [process_comment] reads. *)
Record comment : Type := Comment {
  message : option string;
  user_id : option string;
  username : option string
}.

(** The services awaited by one call: what they return ([None] for their
    caught failures), how long they take, and the I/O failures met by the
    saves of the two caches. *)
Record services : Type := Services {
  generate_response : string -> string -> option string;
  synthesize_speech : string -> option (list Byte.byte);
  generation_time : nat;
  synthesis_time : nat;
  response_faults : Cache.faults;
  audio_faults : Cache.faults
}.

(** The parts of the system a call works on. The two caches hold entries
    that have their value, as [set] writes them. *)
Record system : Type := System {
  response_cache : Cache.CacheManager string;
  response_files : Cache.disk;
  audio_cache : Cache.CacheManager (list Byte.byte);
  audio_files : Cache.disk;
  video_manager : Video.VideoManager;
  video_info_cache : gmap string (gmap string pyval)
}.

(** The dict [process_comment] returns. *)
Record reply : Type := Reply {
  response : string;
  video_info : gmap string pyval;
  has_audio : bool
}.

(** What one call leaves: the returned dict if any, the pair handed to
    [sync_media] if the call got that far, the system, and the clock after
    the awaits of the generator and of the synthesizer. *)
Record outcome : Type := Outcome {
  returned : option reply;
  synced : option (gmap string pyval * list Byte.byte);
  after : system;
  clock : Z
}.

Definition with_responses (sys : system) (c : Cache.CacheManager string)
    (d : Cache.disk) : system :=
  {| response_cache := c; response_files := d;
     audio_cache := audio_cache sys; audio_files := audio_files sys;
     video_manager := video_manager sys;
     video_info_cache := video_info_cache sys |}.

Definition with_audio (sys : system) (c : Cache.CacheManager (list Byte.byte))
    (d : Cache.disk) : system :=
  {| response_cache := response_cache sys; response_files := response_files sys;
     audio_cache := c; audio_files := d;
     video_manager := video_manager sys;
     video_info_cache := video_info_cache sys |}.

Definition with_video_info (sys : system)
    (cache : gmap string (gmap string pyval)) : system :=
  {| response_cache := response_cache sys; response_files := response_files sys;
     audio_cache := audio_cache sys; audio_files := audio_files sys;
     video_manager := video_manager sys;
     video_info_cache := cache |}.

(** [return None], from a test or from the handler of the method. *)
Definition nothing (sys : system) (now : Z) : outcome :=
  {| returned := None; synced := None; after := sys; clock := now |}.

(** From the choice of the video on. *)
Definition play_reply (resp : string) (audio : list Byte.byte) (sys : system)
    (now : Z) : outcome :=
  match Video.get_talking_video joinpath (Z.of_nat (py_len resp))
          (video_manager sys) with
  | Raise _ => nothing sys now
  | Ok video_path =>
      let '(info, cache') :=
        Assets.prepare_video path_name path_exists get_video_info video_path
          (video_info_cache sys) in
      let sys' := with_video_info sys cache' in
      match info with
      | None => nothing sys' now
      | Some info =>
          {| returned := Some {| response := resp; video_info := info;
                                 has_audio := true |};
             synced := Some (info, audio); after := sys'; clock := now |}
      end
  end.

(** From the audio cache lookup on. *)
Definition voice_reply (sv : services) (resp : string) (sys : system) (now : Z)
  : outcome :=
  let audio_key := "audio_" +:+ resp in
  let '(cached, ac) := Cache.get now audio_key (audio_cache sys) in
  let sys1 := with_audio sys ac (audio_files sys) in
  match cached with
  | Some audio =>
      match audio with
      | [] => nothing sys1 now
      | _ :: _ => play_reply resp audio sys1 now
      end
  | None =>
      let now' := now + Z.of_nat (synthesis_time sv) in
      match synthesize_speech sv resp with
      | None | Some [] => nothing sys1 now'
      | Some audio =>
          let '(r, ac', d') :=
            Cache.set dump_audio now' (audio_faults sv) audio_key audio ac
              (audio_files sys) in
          let sys2 := with_audio sys ac' d' in
          match r with
          | Raise _ => nothing sys2 now'
          | Ok _ => play_reply resp audio sys2 now'
          end
      end
  end.

Definition process_comment (sv : services) (c : comment) (sys : system)
    (now : Z) : outcome :=
  match message c with
  | None => nothing sys now
  | Some msg =>
      let cache_key := msg +:+ "_" +:+ default "" (user_id c) in
      let '(cached, rc) := Cache.get now cache_key (response_cache sys) in
      let sys1 := with_responses sys rc (response_files sys) in
      match cached with
      | Some resp =>
          if decide (resp = "") then nothing sys1 now
          else voice_reply sv resp sys1 now
      | None =>
          let now' := now + Z.of_nat (generation_time sv) in
          match generate_response sv msg (default "unknown" (username c)) with
          | None => nothing sys1 now'
          | Some resp =>
              if decide (resp = "") then nothing sys1 now'
              else
                let '(r, rc', d') :=
                  Cache.set dump_responses now' (response_faults sv) cache_key
                    resp rc (response_files sys) in
                let sys2 := with_responses sys rc' d' in
                match r with
                | Raise _ => nothing sys2 now'
                | Ok _ => voice_reply sv resp sys2 now'
                end
          end
      end
  end.

End Main.

End Main.

(** ** services/video_manager.py: run_idle_loop *)

Module IdleLoop.

Section IdleLoop.

Variable joinpath : string -> string -> string.
Variable path_name : string -> string.
Variable path_exists : string -> bool.
Variable get_video_info : string -> option (gmap string pyval).

(** The scheduler, its metadata cache and the clock. *)
Record looping : Type := Looping {
  manager : Video.VideoManager;
  infos : gmap string (gmap string pyval);
  clock : Z
}.

(** [await asyncio.sleep(video_info['duration'])]: the time it takes, or the
    exception of a missing key or of a delay that is not a number. *)
Definition sleep_for (info : gmap string pyval) : result Z :=
  match info !! "duration" with
  | Some (PInt d) => Ok (Z.max 0 d)
  | Some (PStr _) => Raise TypeError
  | None => Raise KeyError
  end.

(** One pass through the body of the [while] loop, not cancelled. *)
Definition iteration (l : looping) : result looping :=
  let '(r, manager') := Video.get_next_idle_video joinpath (manager l) in
  match r with
  | Raise e => Raise e
  | Ok (video_path, _) =>
      let '(video_info, infos') :=
        Assets.prepare_video path_name path_exists get_video_info video_path
          (infos l) in
      match video_info with
      | Some info =>
          match sleep_for info with
          | Ok d => Ok {| manager := manager'; infos := infos';
                          clock := clock l + d |}
          | Raise e => Raise e
          end
      | None => Ok {| manager := manager'; infos := infos'; clock := clock l + 1 |}
      end
  end.

(** How the loop stands after some passes: still going round, or left
    through [except Exception], which logs the exception; [run_idle_loop]
    then returns, with [is_running] set to false by its [finally] block. *)
Inductive ending : Type :=
| Running (l : looping)
| Ended (e : exn).

(** [n] passes of the loop while nobody stops or cancels it. *)
Fixpoint run_idle_loop (n : nat) (l : looping) : ending :=
  match n with
  | O => Running l
  | S n' =>
      match iteration l with
      | Ok l' => run_idle_loop n' l'
      | Raise e => Ended e
      end
  end.

(** Every metadata dict known or obtainable carries a number as duration, and
    one that passes the test below at most. *)
Definition durations_within (bound : Z -> Prop)
    (known : gmap string (gmap string pyval)) : Prop :=
  (∀ name info, known !! name = Some info ->
     ∃ d, info !! "duration" = Some (PInt d) ∧ bound d)
  ∧ (∀ path info, get_video_info path = Some info ->
       ∃ d, info !! "duration" = Some (PInt d) ∧ bound d).

End IdleLoop.

End IdleLoop.

(** ** A sample installation *)

Module Studio.

(** [path.name]: what follows the last slash. *)
Fixpoint name_from (path acc : string) : string :=
  match path with
  | EmptyString => acc
  | String c rest =>
      if decide (String c "" = "/") then name_from rest ""
      else name_from rest (acc +:+ String c "")
  end.

Definition path_name (path : string) : string := name_from path "".

Definition path_exists (path : string) : bool :=
  bool_decide (path ∈ ["videos/idle0.mp4"; "videos/idle1.mp4";
                       "videos/short.mp4"; "videos/medium.mp4";
                       "videos/long.mp4"]).

Definition get_video_info (path : string) : option (gmap string pyval) :=
  Some {[ "type" := PStr "video"; "duration" := PInt 5 ]}.

Definition unreadable (path : string) : option (gmap string pyval) := None.

(** The keys of the audio cache, standing in for its JSON text. *)
Definition dump_audio (c : Cache.dict (list Byte.byte)) : string :=
  foldr (λ p acc, p.1 +:+ ";" +:+ acc) "" c.

Definition services : Main.services :=
  {| Main.generate_response := λ msg user, Some ("Hello " +:+ user);
     Main.synthesize_speech := λ text, Some Sample.voice;
     Main.generation_time := 2; Main.synthesis_time := 1;
     Main.response_faults := Cache.no_faults;
     Main.audio_faults :=
       {| Cache.backup_rename_fails := false;
          Cache.write := Cache.DumpFails "{";
          Cache.restore_rename_fails := false |} |}.

(** A reply of twenty characters, sixty bytes of UTF-8. *)
Definition greeting : string := "こんにちは、今日も来てくれてありがとう！".

Definition greeter : Main.services :=
  {| Main.generate_response := λ msg user, Some greeting;
     Main.synthesize_speech := λ text, Some Sample.voice;
     Main.generation_time := 2; Main.synthesis_time := 1;
     Main.response_faults := Cache.no_faults;
     Main.audio_faults := Cache.no_faults |}.

(** Services that are down. *)
Definition silent : Main.services :=
  {| Main.generate_response := λ msg user, None;
     Main.synthesize_speech := λ text, None;
     Main.generation_time := 30; Main.synthesis_time := 30;
     Main.response_faults := Cache.no_faults;
     Main.audio_faults := Cache.no_faults |}.

Definition comment : Main.comment :=
  {| Main.message := Some "hi"; Main.user_id := Some "u1";
     Main.username := Some "ann" |}.

Definition system : Main.system :=
  {| Main.response_cache := Cache.Mk [] 100 3600;
     Main.response_files := Cache.Disk None None;
     Main.audio_cache := Cache.Mk [] 50 7200;
     Main.audio_files := Cache.Disk None None;
     Main.video_manager := Video.Mk "videos" Sample.catalog 0 0;
     Main.video_info_cache := ∅ |}.

Definition reply : Main.reply :=
  {| Main.response := "Hello ann";
     Main.video_info :=
       {[ "path" := PStr "videos/short.mp4"; "type" := PStr "video";
          "duration" := PInt 5 ]};
     Main.has_audio := true |}.

End Studio.

(** * Properties *)

(** ** Cache store *)

Section CacheFacts.

Context {V : Type}.
Implicit Types (d : Cache.dict V) (e : Cache.entry V) (k : string).
Implicit Types (s : Cache.CacheManager V).

Lemma dict_get_del_eq k d : Cache.dict_get k (Cache.dict_del k d) = None.
Proof.
  induction d as [|[k' e] d IH]; [done|]. simpl.
  destruct (decide (k' = k)) as [Heq|Hne]; [done|].
  simpl. by rewrite decide_False.
Qed.

Lemma dict_get_del_ne k k' d :
  k' ≠ k -> Cache.dict_get k' (Cache.dict_del k d) = Cache.dict_get k' d.
Proof.
  intros Hne. induction d as [|[k0 e] d IH]; [done|]. simpl.
  destruct (decide (k0 = k)) as [->|H0]; simpl.
  - by rewrite decide_False.
  - by rewrite IH.
Qed.

Lemma dict_del_length k d : (length (Cache.dict_del k d) <= length d)%nat.
Proof.
  induction d as [|[k' e] d IH]; simpl; [lia|].
  destruct (decide (k' = k)); simpl; lia.
Qed.

Lemma dict_del_length_lt k d :
  k ∈ d.*1 -> (length (Cache.dict_del k d) < length d)%nat.
Proof.
  induction d as [|[k' e] d IH]; simpl.
  - intros H. by apply elem_of_nil in H.
  - intros H. destruct (decide (k' = k)) as [->|Hne]; simpl.
    + pose proof (dict_del_length k d). lia.
    + apply elem_of_cons in H as [H|H]; [congruence|].
      specialize (IH H). lia.
Qed.

Lemma dict_set_length k e d :
  (length (Cache.dict_set k e d) <= S (length d))%nat.
Proof.
  induction d as [|[k' e'] d IH]; simpl; [lia|].
  destruct (decide (k' = k)); simpl; lia.
Qed.

Lemma dict_get_set_eq k e d : Cache.dict_get k (Cache.dict_set k e d) = Some e.
Proof.
  induction d as [|[k' e'] d IH]; simpl.
  - by rewrite decide_True.
  - destruct (decide (k' = k)) as [->|Hne]; simpl.
    + by rewrite decide_True.
    + by rewrite decide_False.
Qed.

(** What [min] returns is an item of the sequence, and none has a smaller
    key. *)
Lemma fold_min_elem {A} (key : A -> Z) (rest : list A) (x : A) :
  fold_left (λ best y, if key y <? key best then y else best) rest x
    ∈ x :: rest.
Proof.
  revert x. induction rest as [|y rest IH]; intros x; simpl.
  - apply elem_of_cons. by left.
  - destruct (key y <? key x).
    + apply elem_of_cons. right. apply IH.
    + specialize (IH x). apply elem_of_cons in IH as [->|IH].
      * apply elem_of_cons. by left.
      * apply elem_of_cons. right. apply elem_of_cons. by right.
Qed.

Lemma fold_min_least {A} (key : A -> Z) (rest : list A) (x : A) :
  ∀ y, y ∈ x :: rest ->
    key (fold_left (λ best y, if key y <? key best then y else best) rest x)
    <= key y.
Proof.
  revert x. induction rest as [|z rest IH]; intros x y Hy; simpl.
  - apply list_elem_of_singleton in Hy. subst. lia.
  - assert (Hhere : ∀ u : A, u ∈ u :: rest) by (intros u; apply elem_of_cons; by left).
    destruct (Z.ltb_spec (key z) (key x)) as [Hlt|Hge].
    + apply elem_of_cons in Hy as [->|Hy].
      * specialize (IH z z (Hhere z)). lia.
      * by apply IH.
    + apply elem_of_cons in Hy as [->|Hy].
      * by apply IH.
      * apply elem_of_cons in Hy as [->|Hy].
        -- specialize (IH x x (Hhere x)). lia.
        -- apply IH. apply elem_of_cons. by right.
Qed.

Lemma py_min_elem {A} (key : A -> Z) (l : list A) (x : A) :
  Cache.py_min key l = Some x -> x ∈ l.
Proof.
  destruct l as [|y l]; simpl; [done|].
  intros [= <-]. apply fold_min_elem.
Qed.

Lemma py_min_least {A} (key : A -> Z) (l : list A) (x : A) :
  Cache.py_min key l = Some x -> ∀ y, y ∈ l -> key x <= key y.
Proof.
  destruct l as [|z l]; simpl; [done|].
  intros [= <-]. apply fold_min_least.
Qed.

(** The eviction step keeps the limits and never lengthens the mapping; at
    the limit with something to evict it shortens it. *)
Lemma evict_oldest_ok s s1 :
  Cache.evict_oldest s = Ok s1 ->
  Cache.max_size s1 = Cache.max_size s ∧ Cache.ttl s1 = Cache.ttl s ∧
  (length (Cache.cache s1) <= length (Cache.cache s))%nat ∧
  (Cache.max_size s <= Z.of_nat (length (Cache.cache s)) ->
   (length (Cache.cache s1) < length (Cache.cache s))%nat).
Proof.
  unfold Cache.evict_oldest.
  destruct (Z.geb_spec (Z.of_nat (length (Cache.cache s))) (Cache.max_size s))
    as [Hge|Hlt].
  - destruct (Cache.py_min _ _) as [oldest|] eqn:Hmin; [|done].
    intros [= <-]. simpl. split_and!; try done.
    + apply dict_del_length.
    + intros _. apply dict_del_length_lt.
      apply py_min_elem in Hmin. by apply list_elem_of_fmap_2.
  - intros [= <-]. split_and!; try done. lia.
Qed.

(** At the limit, what goes is the first entry of least timestamp, whole. *)
Lemma evict_oldest_removes_minimum s s1 :
  Cache.max_size s <= Z.of_nat (length (Cache.cache s)) ->
  Cache.evict_oldest s = Ok s1 ->
  ∃ oldest, oldest ∈ Cache.cache s
    ∧ (∀ p, p ∈ Cache.cache s ->
            Cache.timestamp oldest.2 <= Cache.timestamp p.2)
    ∧ Cache.cache s1 = Cache.dict_del oldest.1 (Cache.cache s)
    ∧ Cache.dict_get oldest.1 (Cache.cache s1) = None
    ∧ (∀ k, k ≠ oldest.1 ->
            Cache.dict_get k (Cache.cache s1) = Cache.dict_get k (Cache.cache s)).
Proof.
  unfold Cache.evict_oldest. intros Hfull.
  replace (Z.of_nat (length (Cache.cache s)) >=? Cache.max_size s) with true
    by (symmetry; apply Z.geb_le; lia).
  destruct (Cache.py_min _ _) as [oldest|] eqn:Hmin; [|done].
  intros [= <-]. exists oldest. simpl. split_and!.
  - by apply py_min_elem in Hmin.
  - intros p Hp.
    by apply (py_min_least (λ x : string * Cache.entry V, Cache.timestamp x.2)
                _ _ Hmin).
  - done.
  - apply dict_get_del_eq.
  - intros k Hk. by apply dict_get_del_ne.
Qed.

(** Below the limit nothing is evicted. *)
Lemma evict_oldest_below_limit s :
  Z.of_nat (length (Cache.cache s)) < Cache.max_size s ->
  Cache.evict_oldest s = Ok s.
Proof.
  unfold Cache.evict_oldest. intros Hlt.
  by replace (Z.of_nat (length (Cache.cache s)) >=? Cache.max_size s) with false
    by (rewrite Z.geb_leb; symmetry; apply Z.leb_gt; lia).
Qed.

Lemma save_cache_memory json_dumps f s (dk : Cache.disk) :
  (Cache.save_cache json_dumps f s dk).1.2 = s.
Proof.
  unfold Cache.save_cache.
  destruct (Cache.save_try json_dumps f s dk) as [[] d1]; [done|].
  destruct (Cache.backup_file d1); [|done].
  by destruct (Cache.restore_rename_fails f).
Qed.

(** A write that fails after the backing file was moved aside is undone by
    the handler. *)
Lemma save_cache_write_failure json_dumps f s old bak :
  Cache.backup_rename_fails f = false ->
  Cache.write f ≠ Cache.WriteOk ->
  Cache.restore_rename_fails f = false ->
  Cache.save_cache json_dumps f s
    {| Cache.cache_file := Some old; Cache.backup_file := bak |}
  = (Cache.SaveFailed, s,
     {| Cache.cache_file := Some old; Cache.backup_file := None |}).
Proof.
  intros Hb Hw Hr. unfold Cache.save_cache, Cache.save_try. simpl.
  rewrite Hb. simpl. destruct (Cache.write f); [done| |]; simpl; by rewrite Hr.
Qed.

Lemma set_memory json_dumps now f key v s (dk : Cache.disk) :
  let s' := (Cache.set json_dumps now f key v s dk).1.2 in
  Cache.max_size s' = Cache.max_size s ∧ Cache.ttl s' = Cache.ttl s ∧
  (Z.of_nat (length (Cache.cache s)) <= Cache.max_size s ->
   Z.of_nat (length (Cache.cache s')) <= Cache.max_size s).
Proof.
  unfold Cache.set.
  destruct (Cache.evict_oldest s) as [s1|err] eqn:Hev; simpl; [|done].
  apply evict_oldest_ok in Hev as (Hm & Ht & Hle & Hlt).
  set (s2 := Cache.with_cache s1 _).
  pose proof (save_cache_memory json_dumps f s2 dk) as Hmem.
  destruct (Cache.save_cache json_dumps f s2 dk) as [[o s3] d'].
  simpl in Hmem. subst s3.
  assert (Hs2 : (length (Cache.cache s2) <= S (length (Cache.cache s1)))%nat)
    by apply dict_set_length.
  assert (Hgoal : Cache.max_size s2 = Cache.max_size s ∧
                  Cache.ttl s2 = Cache.ttl s ∧
                  (Z.of_nat (length (Cache.cache s)) <= Cache.max_size s ->
                   Z.of_nat (length (Cache.cache s2)) <= Cache.max_size s)).
  { split_and!; try done. intros Hbound.
    destruct (Z_lt_le_dec (Z.of_nat (length (Cache.cache s))) (Cache.max_size s)).
    - lia.
    - specialize (Hlt ltac:(lia)). lia. }
  by destruct o.
Qed.

End CacheFacts.

(** *** Worked examples for the cache store *)

Example get_hit : (Cache.get 100 "a" two_entries).1 = Some "x".
Proof. reflexivity. Qed.

Example get_expired :
  Cache.get 3601 "a" two_entries
  = (None, Cache.with_cache two_entries [("b", Cache.Entry "y" 2)]).
Proof. reflexivity. Qed.

Example set_new_key_at_capacity :
  Cache.cache
    (Cache.set Sample.dumps 3 Cache.no_faults "c" "z" two_entries no_files).1.2
  = [("b", Cache.Entry "y" 2); ("c", Cache.Entry "z" 3)].
Proof. reflexivity. Qed.

Example set_empty_store_of_size_zero :
  Cache.set Sample.dumps 3 Cache.no_faults "c" "z"
    {| Cache.cache := []; Cache.max_size := 0; Cache.ttl := 3600 |} no_files
  = (Raise ValueError,
     {| Cache.cache := []; Cache.max_size := 0; Cache.ttl := 3600 |}, no_files).
Proof. reflexivity. Qed.

(** Two saves leave the latest text in the backing file and the one before
    in the backup. *)
Example two_saves_leave_a_backup :
  let st1 := Cache.do_set Sample.dumps
               (Cache.SetCall 1 Cache.no_faults "a" "x")
               ({| Cache.cache := []; Cache.max_size := 2; Cache.ttl := 3600 |},
                no_files) in
  let st2 := Cache.do_set Sample.dumps
               (Cache.SetCall 2 Cache.no_faults "b" "y") st1 in
  st2.1 = two_entries ∧
  st2.2 = {| Cache.cache_file := Some "a=x@1;b=y@2;";
             Cache.backup_file := Some "a=x@1;" |}.
Proof. vm_compute. done. Qed.

(** After those two saves, a third one whose rename to the backup path fails
    puts the text of the first save back in the backing file. *)
Example third_save_with_failed_rename :
  let st3 := Cache.do_set Sample.dumps (Cache.SetCall 3 rename_fault "b" "z")
               (two_entries,
                {| Cache.cache_file := Some "a=x@1;b=y@2;";
                   Cache.backup_file := Some "a=x@1;" |}) in
  Cache.cache st3.1 = [("b", Cache.Entry "z" 3)]
  ∧ st3.2 = {| Cache.cache_file := Some "a=x@1;"; Cache.backup_file := None |}.
Proof. vm_compute. done. Qed.

Example load_drops_expired :
  Cache.cache
    (Cache.init Sample.load 3601
       {| Cache.cache_file := Some "a=x@1;b=y@2;"; Cache.backup_file := None |}
       2 3600)
  = [("b", Cache.Entry "y" 2)].
Proof. vm_compute. reflexivity. Qed.

Example load_of_damaged_files :
  Cache.cache
    (Cache.init Sample.load 10
       {| Cache.cache_file := Some "a=x@1;b=?;"; Cache.backup_file := None |}
       2 3600) = []
  ∧ Cache.cache
      (Cache.init Sample.load 10
         {| Cache.cache_file := Some "a=x@"; Cache.backup_file := None |}
         2 3600) = []
  ∧ Cache.cache (Cache.init Sample.load 10 no_files 2 3600) = [].
Proof. vm_compute. done. Qed.

(** *** C1 *)

(** C1 (fails on the code): a failed save does not always leave the backing
    file as it was. When the rename to the backup path fails, the handler
    renames the backup left by an earlier save over the current backing file;
    when the first save of a store fails while writing, the partly written file
    stays. In both runs the in-memory store is returned unchanged. *)
Theorem save_cache_failure_alters_backing_file {V : Type}
    (json_dumps : Cache.dict V -> string) (s : Cache.CacheManager V)
    (current older written : string) :
  Cache.save_cache json_dumps rename_fault s
    {| Cache.cache_file := Some current; Cache.backup_file := Some older |}
  = (Cache.SaveFailed, s,
     {| Cache.cache_file := Some older; Cache.backup_file := None |})
  ∧
  Cache.save_cache json_dumps (dump_fault written) s no_files
  = (Cache.SaveFailed, s,
     {| Cache.cache_file := Some written; Cache.backup_file := None |}).
Proof. split; reflexivity. Qed.

(** *** C3 *)

(** C3 (fails on the code): overwriting a key of a store that holds
    [max_size] entries evicts the oldest entry, here the other key ["a"],
    although the overwrite would not lengthen the mapping. *)
Theorem set_overwrite_at_capacity_evicts
    (json_dumps : Cache.dict string -> string) (f : Cache.faults)
    (dk : Cache.disk) :
  Cache.cache (Cache.set json_dumps 3 f "b" "z" two_entries dk).1.2
  = [("b", Cache.Entry "z" 3)].
Proof.
  unfold Cache.set. simpl.
  match goal with |- context [Cache.save_cache ?j ?f ?s ?d] =>
    pose proof (save_cache_memory j f s d) as Hmem;
    destruct (Cache.save_cache j f s d) as [[o s3] d'] end.
  simpl in Hmem. subst s3. by destruct o.
Qed.

(** *** C4 *)

(** C4: from a store with [len(cache) <= max_size], after each call of any
    sequence of [set] calls (whatever the clock, the keys, the values and the
    I/O failures of the saves) the store still has [len(cache) <= max_size],
    with [max_size] unchanged. *)
Theorem set_sequence_within_max_size {V : Type}
    (json_dumps : Cache.dict V -> string) (calls : list (Cache.set_call V))
    (s : Cache.CacheManager V) (dk : Cache.disk) :
  Z.of_nat (length (Cache.cache s)) <= Cache.max_size s ->
  Forall (λ s', Z.of_nat (length (Cache.cache s')) <= Cache.max_size s' ∧
                Cache.max_size s' = Cache.max_size s)
    (Cache.set_trace json_dumps calls (s, dk)).
Proof.
  revert s dk. induction calls as [|c calls IH]; intros s dk Hbound; simpl.
  - constructor.
  - unfold Cache.do_set at 1 2. simpl.
    pose proof (set_memory json_dumps (Cache.call_now c) (Cache.call_faults c)
                  (Cache.call_key c) (Cache.call_value c) s dk) as Hset.
    unfold Cache.do_set. simpl.
    destruct (Cache.set json_dumps _ _ _ _ s dk) as [[r s'] d'].
    simpl in *. destruct Hset as (Hm & _ & Hb). specialize (Hb Hbound).
    constructor; [split; [lia|done]|].
    eapply Forall_impl; [apply IH; lia|].
    intros s'' [? ?]. split; [done|congruence].
Qed.

Lemma set_sequence_within_max_size_witness :
  Forall (λ s', Z.of_nat (length (Cache.cache s')) <= Cache.max_size s' ∧
                Cache.max_size s' = Cache.max_size two_entries)
    (Cache.set_trace Sample.dumps three_sets (two_entries, no_files)).
Proof.
  apply (set_sequence_within_max_size Sample.dumps three_sets two_entries no_files).
  simpl. lia.
Defined.

(** *** C5 *)

(** On a store whose entries all have their value, as [set] writes them,
    [get] returns a value exactly when the key is present with
    [now - timestamp < ttl], and then it is the stored value and the store is
    unchanged; on a present key with [now - timestamp >= ttl] it returns
    nothing and deletes the key, so that any later [get] of the key returns
    nothing, and the other keys are kept. *)
Theorem get_returns_fresh_value_only {V : Type} (now : Z) (key : string)
    (s : Cache.CacheManager V) :
  (∀ v, (Cache.get now key s).1 = Some v ↔
        ∃ e, Cache.dict_get key (Cache.cache s) = Some e ∧
             Cache.value e = v ∧ now - Cache.timestamp e < Cache.ttl s)
  ∧ (∀ v, (Cache.get now key s).1 = Some v -> (Cache.get now key s).2 = s)
  ∧ (∀ e, Cache.dict_get key (Cache.cache s) = Some e ->
          Cache.ttl s <= now - Cache.timestamp e ->
          (Cache.get now key s).1 = None
          ∧ Cache.dict_get key (Cache.cache (Cache.get now key s).2) = None
          ∧ (∀ later, (Cache.get later key (Cache.get now key s).2).1 = None)
          ∧ (∀ k, k ≠ key ->
                  Cache.dict_get k (Cache.cache (Cache.get now key s).2)
                  = Cache.dict_get k (Cache.cache s))).
Proof.
  unfold Cache.get. split_and!.
  - intros v. destruct (Cache.dict_get key (Cache.cache s)) as [e|] eqn:He.
    + destruct (Z.ltb_spec (now - Cache.timestamp e) (Cache.ttl s)); simpl.
      * split; [intros [= <-]; eauto|].
        intros (e' & [= <-] & <- & _). done.
      * split; [done|]. intros (e' & [= <-] & _ & ?). lia.
    + simpl. split; [done|]. intros (e' & ? & _). done.
  - intros v. destruct (Cache.dict_get key (Cache.cache s)) as [e|]; [|done].
    by destruct (now - Cache.timestamp e <? Cache.ttl s).
  - intros e -> Hold.
    destruct (Z.ltb_spec (now - Cache.timestamp e) (Cache.ttl s)); [lia|].
    simpl. split_and!; [done|apply dict_get_del_eq| |].
    + intros later. by rewrite dict_get_del_eq.
    + intros k Hk. by apply dict_get_del_ne.
Qed.

(** On the stores of entries that have their value, [Loaded.get] is
    [Cache.get]: it does not raise, returns what [Cache.get] returns and
    leaves the store that [Cache.get] leaves. *)
Lemma get_written {V : Type} (now : Z) (key : string)
    (s : Cache.CacheManager V) :
  Loaded.get now key (Loaded.written s)
  = (Ok (Cache.get now key s).1, Loaded.written (Cache.get now key s).2).
Proof.
  destruct s as [c m t]. unfold Loaded.get, Cache.get, Loaded.written. simpl.
  assert (Hget : Cache.dict_get key (prod_map id Loaded.written_entry <$> c)
                 = Loaded.written_entry <$> Cache.dict_get key c).
  { induction c as [|[k e] c IH]; simpl; [done|].
    destruct (decide (k = key)); [done|apply IH]. }
  assert (Hdel : Cache.dict_del key (prod_map id Loaded.written_entry <$> c)
                 = prod_map id Loaded.written_entry <$> Cache.dict_del key c).
  { clear Hget. induction c as [|[k e] c IH]; simpl; [done|].
    destruct (decide (k = key)); simpl; [apply IH|f_equal; apply IH]. }
  rewrite Hget, Hdel. destruct (Cache.dict_get key c) as [e|]; simpl; [|done].
  by destruct (now - Cache.timestamp e <? t).
Qed.

(** C5 (fails on the code): [load_cache] keeps an item of the backing file
    that has a timestamp within the time-to-live and no value, and [get] of
    its key raises [KeyError]. *)
Lemma get_raises_on_entry_without_value :
  let s := Cache.init load_item_without_value 10
             {| Cache.cache_file := Some "a=x@1;b=@5;";
                Cache.backup_file := None |} 2 3600 in
  Cache.cache s = [("a", Cache.Entry (Some "x") 1); ("b", Cache.Entry None 5)]
  ∧ Loaded.get 10 "b" s = (Raise KeyError, s)
  ∧ Loaded.get 10 "a" s = (Ok (Some "x"), s).
Proof. vm_compute. done. Qed.

(** C5 (as the code has it): [get] returns a value exactly when the key is
    present with [now - timestamp < ttl] and its entry has a value, and then
    it is the stored value; it raises exactly when the key is present with
    [now - timestamp < ttl] and its entry has no value, and then [KeyError];
    either way the store is unchanged. On a present key with
    [now - timestamp >= ttl] it returns nothing and deletes the key, so that
    any later [get] of the key returns nothing, and the other keys are kept.
    [get] never raises for a key whose entry has a value, and so never on a
    store whose entries were all written by [set]. *)
Theorem get_returns_fresh_value_or_raises {V : Type} (now : Z) (key : string)
    (s : Cache.CacheManager (option V)) :
  let r := Loaded.get now key s in
  (∀ v, r.1 = Ok (Some v) ↔
        ∃ e, Cache.dict_get key (Cache.cache s) = Some e ∧
             Cache.value e = Some v ∧ now - Cache.timestamp e < Cache.ttl s)
  ∧ (∀ x, r.1 = Raise x ↔
          x = KeyError ∧
          ∃ e, Cache.dict_get key (Cache.cache s) = Some e ∧
               Cache.value e = None ∧ now - Cache.timestamp e < Cache.ttl s)
  ∧ (r.1 ≠ Ok None -> r.2 = s)
  ∧ (∀ e, Cache.dict_get key (Cache.cache s) = Some e ->
          Cache.ttl s <= now - Cache.timestamp e ->
          r.1 = Ok None
          ∧ Cache.dict_get key (Cache.cache r.2) = None
          ∧ (∀ later, Loaded.get later key r.2 = (Ok None, r.2))
          ∧ (∀ k, k ≠ key ->
                  Cache.dict_get k (Cache.cache r.2)
                  = Cache.dict_get k (Cache.cache s)))
  ∧ ((∀ e, Cache.dict_get key (Cache.cache s) = Some e ->
           Cache.value e ≠ None) ->
     ∃ o, r.1 = Ok o)
  ∧ (∀ (w : Cache.CacheManager V) later,
       ∃ o, (Loaded.get later key (Loaded.written w)).1 = Ok o).
Proof.
  intros r. subst r. split_and!; [unfold Loaded.get..|].
  - intros v. destruct (Cache.dict_get key (Cache.cache s)) as [e|] eqn:He.
    + destruct (Z.ltb_spec (now - Cache.timestamp e) (Cache.ttl s)); simpl.
      * destruct (Cache.value e) as [v'|] eqn:Hv.
        -- split; [intros [= <-]; eauto|].
           intros (e' & [= <-] & Hv' & _). congruence.
        -- split; [done|]. intros (e' & [= <-] & Hv' & _). congruence.
      * split; [done|]. intros (e' & [= <-] & _ & ?). lia.
    + simpl. split; [done|]. intros (e' & ? & _). done.
  - intros x. destruct (Cache.dict_get key (Cache.cache s)) as [e|] eqn:He.
    + destruct (Z.ltb_spec (now - Cache.timestamp e) (Cache.ttl s)); simpl.
      * destruct (Cache.value e) as [v'|] eqn:Hv.
        -- split; [done|]. intros (_ & e' & [= <-] & Hv' & _). congruence.
        -- split; [intros [= <-]; eauto|]. by intros (-> & _).
      * split; [done|]. intros (_ & e' & [= <-] & _ & ?). lia.
    + simpl. split; [done|]. intros (_ & e' & ? & _). done.
  - destruct (Cache.dict_get key (Cache.cache s)) as [e|]; [|done].
    by destruct (now - Cache.timestamp e <? Cache.ttl s).
  - intros e -> Hold.
    destruct (Z.ltb_spec (now - Cache.timestamp e) (Cache.ttl s)); [lia|].
    simpl. split_and!; [done|apply dict_get_del_eq| |].
    + intros later. by rewrite dict_get_del_eq.
    + intros k Hk. by apply dict_get_del_ne.
  - intros Hval. destruct (Cache.dict_get key (Cache.cache s)) as [e|] eqn:He;
      [|by eexists].
    destruct (now - Cache.timestamp e <? Cache.ttl s); [|by eexists].
    simpl. destruct (Cache.value e) as [v|] eqn:Hv; [by eexists|].
    by destruct (Hval e eq_refl).
  - intros w later. eexists. by rewrite get_written.
Qed.

(** *** C9 *)

(** C9: the store built at construction holds only entries with
    [now - timestamp < ttl]: when the backing file parses to a mapping of
    entries, exactly those of its items that pass this test, in file order;
    when the file is missing, does not parse, or holds an item that is not an
    entry, the store is empty. [load_cache] is a total function: every failure
    inside it ends in the empty store. *)
Theorem load_cache_keeps_fresh_entries {V : Type}
    (json_load : string -> option (list (string * option (Cache.entry V))))
    (now : Z) (dk : Cache.disk) (max_size_ ttl_ : Z) :
  let s := Cache.init json_load now dk max_size_ ttl_ in
  (∀ k e, (k, e) ∈ Cache.cache s -> now - Cache.timestamp e < ttl_)
  ∧ (Cache.cache_file dk = None -> Cache.cache s = [])
  ∧ (∀ text, Cache.cache_file dk = Some text -> json_load text = None ->
             Cache.cache s = [])
  ∧ (∀ text items, Cache.cache_file dk = Some text ->
                   json_load text = Some items -> None ∈ items.*2 ->
                   Cache.cache s = [])
  ∧ (∀ text (entries : list (string * Cache.entry V)),
        Cache.cache_file dk = Some text ->
        json_load text = Some (prod_map id Some <$> entries) ->
                     Cache.cache s
                     = filter (λ p : string * Cache.entry V,
                                 now - Cache.timestamp p.2 < ttl_) entries)
  ∧ Cache.max_size s = max_size_ ∧ Cache.ttl s = ttl_.
Proof.
  assert (Hfresh : ∀ (items : list (string * option (Cache.entry V))) kept,
            Cache.fresh_items now ttl_ items = Some kept ->
            ∀ k e, (k, e) ∈ kept -> now - Cache.timestamp e < ttl_).
  { induction items as [|[k0 [e0|]] items IH]; simpl; intros kept Hk k e Hin.
    - injection Hk as <-. by apply elem_of_nil in Hin.
    - destruct (Cache.fresh_items now ttl_ items) as [kept0|]; [|done].
      injection Hk as <-.
      destruct (Z.ltb_spec (now - Cache.timestamp e0) ttl_); [|by eapply IH].
      apply elem_of_cons in Hin as [[= -> ->]|Hin]; [done|by eapply IH].
    - done. }
  assert (Hbad : ∀ items : list (string * option (Cache.entry V)),
            None ∈ items.*2 ->
                          Cache.fresh_items now ttl_ items = None).
  { induction items as [|[k0 [e0|]] items IH]; simpl; intros Hin.
    - by apply elem_of_nil in Hin.
    - apply elem_of_cons in Hin as [?|Hin]; [done|]. by rewrite IH.
    - done. }
  assert (Hgood : ∀ entries : list (string * Cache.entry V),
            Cache.fresh_items now ttl_ (prod_map id Some <$> entries)
            = Some (filter (λ p : string * Cache.entry V,
                             now - Cache.timestamp p.2 < ttl_) entries)).
  { induction entries as [|[k0 e0] entries IH]; [done|].
    unfold fmap in *. simpl. rewrite IH. f_equal.
    change (filter ?P ((k0, e0) :: entries))
      with (if decide (now - Cache.timestamp e0 < ttl_)
            then (k0, e0) :: filter P entries else filter P entries).
    destruct (Z.ltb_spec (now - Cache.timestamp e0) ttl_).
    - by rewrite decide_True.
    - rewrite decide_False; [done|lia]. }
  intros s. subst s. unfold Cache.init, Cache.load_cache. simpl.
  destruct (Cache.cache_file dk) as [text|]; simpl;
    [destruct (json_load text) as [items|] eqn:Hload; simpl;
     [destruct (Cache.fresh_items now ttl_ items) as [kept|] eqn:Hk; simpl|]|].
  all: split_and!; try done.
  all: try (intros k e Hin; first [by apply elem_of_nil in Hin|by eapply Hfresh]).
  all: intros; simplify_eq.
  - rewrite Hbad in Hk; done.
  - rewrite Hgood in Hk. by simplify_eq.
  - by rewrite Hgood in Hk.
Qed.

(** ** Idle/talking scheduler *)

Example idle_pattern_walk :
  (Video.idle_calls Sample.joinpath 4 (scheduler Sample.catalog 0 0)).1
  = [Ok ("videos/idle0.mp4", false); Ok ("videos/idle0.mp4", true);
     Ok ("videos/idle1.mp4", true); Ok ("videos/idle0.mp4", false)].
Proof. vm_compute. reflexivity. Qed.

Example idle_index_out_of_range :
  Video.get_next_idle_video Sample.joinpath (scheduler Sample.catalog 7 0)
  = (Ok ("videos/idle0.mp4", true), scheduler Sample.catalog 7 0).
Proof. vm_compute. reflexivity. Qed.

Example talking_two_clips_only :
  Video.get_talking_video Sample.joinpath 500
    (scheduler {| Video.idle_pattern := None; Video.idle := ∅;
                  Video.talking := ["short.mp4"; "medium.mp4"] |} 0 0)
  = Ok "videos/short.mp4".
Proof. vm_compute. reflexivity. Qed.

Section SchedulerFacts.

Variable joinpath : string -> string -> string.

Lemma py_index_in_range {A} (l : list A) (i : Z) (x : A) :
  0 <= i -> l !! Z.to_nat i = Some x -> py_index l i = Ok x.
Proof.
  intros Hi Hx. unfold py_index.
  apply lookup_lt_Some in Hx as Hlt.
  replace (0 <=? i) with true by (symmetry; apply Z.leb_le; lia).
  replace (i <? Z.of_nat (length l)) with true
    by (symmetry; apply Z.ltb_lt; lia).
  simpl. by rewrite Hx.
Qed.

Lemma py_index_out_of_range {A} (l : list A) (i : Z) :
  Z.of_nat (length l) <= i ∨ i < - Z.of_nat (length l) ->
  py_index l i = Raise IndexError.
Proof.
  intros Hi. unfold py_index.
  destruct (Z.leb_spec 0 i), (Z.ltb_spec i (Z.of_nat (length l))),
    (Z.leb_spec (- Z.of_nat (length l)) i), (Z.ltb_spec i 0);
    simpl; try done; lia.
Qed.

(** One call on a well-formed step: the path of the step's video, and the
    cursor moved as [current_repeat] tells. *)
Lemma get_next_idle_video_step dir c idx rep patterns pattern key name r :
  Video.idle_pattern c = Some patterns ->
  0 <= idx ->
  patterns !! Z.to_nat idx = Some pattern ->
  pattern !! "video" = Some (PStr key) ->
  pattern !! "repeat" = Some (PInt r) ->
  Video.idle c !! key = Some name ->
  Video.get_next_idle_video joinpath (Video.Mk dir c idx rep)
  = if rep >=? r - 1
    then (Ok (joinpath dir name, true),
          Video.Mk dir c ((idx + 1) `mod` Z.of_nat (length patterns)) 0)
    else (Ok (joinpath dir name, false), Video.Mk dir c idx (rep + 1)).
Proof.
  intros Hp Hidx Hstep Hkey Hrep Hname.
  unfold Video.get_next_idle_video, Video.next_idle_try. simpl.
  rewrite Hp. simpl. rewrite (py_index_in_range _ _ _ Hidx Hstep). simpl.
  rewrite Hkey. simpl. rewrite Hname. simpl. rewrite Hrep. simpl.
  by destruct (rep >=? r - 1).
Qed.

Lemma idle_calls_countdown dir c idx patterns pattern key name r (m : nat) :
  Video.idle_pattern c = Some patterns ->
  0 <= idx ->
  patterns !! Z.to_nat idx = Some pattern ->
  pattern !! "video" = Some (PStr key) ->
  pattern !! "repeat" = Some (PInt r) ->
  Video.idle c !! key = Some name ->
  ∀ rep, rep + Z.of_nat m = r - 1 ->
    Video.idle_calls joinpath (S m) (Video.Mk dir c idx rep)
    = (replicate m (Ok (joinpath dir name, false))
         ++ [Ok (joinpath dir name, true)],
       Video.Mk dir c ((idx + 1) `mod` Z.of_nat (length patterns)) 0).
Proof.
  intros Hp Hidx Hstep Hkey Hrep Hname.
  induction m as [|m IH]; intros rep Hsum.
  - simpl.
    rewrite (get_next_idle_video_step dir c idx rep patterns pattern key name r)
      by done.
    replace (rep >=? r - 1) with true by (symmetry; apply Z.geb_le; lia).
    done.
  - change (Video.idle_calls joinpath (S (S m)) ?s)
      with (let '(r0, s') := Video.get_next_idle_video joinpath s in
            let '(rs, s'') := Video.idle_calls joinpath (S m) s' in
            (r0 :: rs, s'')).
    rewrite (get_next_idle_video_step dir c idx rep patterns pattern key name r)
      by done.
    replace (rep >=? r - 1) with false
      by (rewrite Z.geb_leb; symmetry; apply Z.leb_gt; lia).
    rewrite (IH (rep + 1)) by lia. done.
Qed.

End SchedulerFacts.

(** *** C6 *)

(** C6: with the cursor on a pattern step whose video key is in the idle
    catalog and whose repeat count is [r >= 1], and [current_repeat = 0], [r]
    calls of [get_next_idle_video] all return the path of that step's video,
    the pattern-end flag is false on the first [r - 1] calls and true on the
    [r]-th, and the cursor is left on index [(index + 1) mod len(pattern)]
    with [current_repeat = 0]. *)
Theorem idle_step_repeats_then_advances
    (joinpath : string -> string -> string) (self : Video.VideoManager)
    (patterns : list (gmap string pyval)) (pattern : gmap string pyval)
    (key name : string) (r : Z) :
  Video.idle_pattern (Video.cfg self) = Some patterns ->
  0 <= Video.current_idle_index self ->
  patterns !! Z.to_nat (Video.current_idle_index self) = Some pattern ->
  pattern !! "video" = Some (PStr key) ->
  pattern !! "repeat" = Some (PInt r) ->
  1 <= r ->
  Video.idle (Video.cfg self) !! key = Some name ->
  Video.current_repeat self = 0 ->
  Video.idle_calls joinpath (Z.to_nat r) self
  = (replicate (Z.to_nat r - 1) (Ok (joinpath (Video.video_dir self) name, false))
       ++ [Ok (joinpath (Video.video_dir self) name, true)],
     Video.with_cursor self
       ((Video.current_idle_index self + 1) `mod` Z.of_nat (length patterns)) 0).
Proof.
  destruct self as [dir c idx rep]. simpl.
  intros Hp Hidx Hstep Hkey Hrep Hr Hname ->.
  replace (Z.to_nat r) with (S (Z.to_nat r - 1)) at 1 by lia.
  by apply (idle_calls_countdown joinpath dir c idx patterns pattern key name r);
    [..|lia].
Qed.

Lemma idle_step_repeats_then_advances_witness :
  Video.idle_calls Sample.joinpath (Z.to_nat 2) (scheduler Sample.catalog 0 0)
  = (replicate (Z.to_nat 2 - 1) (Ok (Sample.joinpath "videos" "idle0.mp4", false))
       ++ [Ok (Sample.joinpath "videos" "idle0.mp4", true)],
     Video.with_cursor (scheduler Sample.catalog 0 0) ((0 + 1) `mod` Z.of_nat 2) 0).
Proof.
  apply (idle_step_repeats_then_advances Sample.joinpath
           (scheduler Sample.catalog 0 0)
           [Sample.step "00" 2; Sample.step "01" 1] (Sample.step "00" 2)
           "00" "idle0.mp4" 2);
    first [reflexivity | lia | by vm_compute].
Defined.

(** *** C7 *)

(** C7: with three talking clips configured, [get_talking_video] returns the
    first for every length below 50, the second for every length from 50 to
    99 and the third for every length from 100 on; so 10 gives the first, 75
    and 50 the second, 500 and 100 the third. *)
Theorem get_talking_video_tiers
    (joinpath : string -> string -> string) (self : Video.VideoManager)
    (short medium long : string) :
  Video.talking (Video.cfg self) !! 0%nat = Some short ->
  Video.talking (Video.cfg self) !! 1%nat = Some medium ->
  Video.talking (Video.cfg self) !! 2%nat = Some long ->
  let clip name := Ok (joinpath (Video.video_dir self) name) in
  (∀ n, n < 50 -> Video.get_talking_video joinpath n self = clip short)
  ∧ (∀ n, 50 <= n < 100 -> Video.get_talking_video joinpath n self = clip medium)
  ∧ (∀ n, 100 <= n -> Video.get_talking_video joinpath n self = clip long)
  ∧ Video.get_talking_video joinpath 10 self = clip short
  ∧ Video.get_talking_video joinpath 75 self = clip medium
  ∧ Video.get_talking_video joinpath 500 self = clip long
  ∧ Video.get_talking_video joinpath 50 self = clip medium
  ∧ Video.get_talking_video joinpath 100 self = clip long.
Proof.
  intros H0 H1 H2 clip.
  assert (Htier : ∀ n, Video.get_talking_video joinpath n self
                       = clip (if n <? 50 then short
                               else if n <? 100 then medium else long)).
  { intros n. unfold Video.get_talking_video, Video.talking_try, clip.
    destruct (n <? 50); [|destruct (n <? 100)].
    - by rewrite (py_index_in_range _ 0 short).
    - by rewrite (py_index_in_range _ 1 medium).
    - by rewrite (py_index_in_range _ 2 long). }
  split_and!; try (rewrite Htier; reflexivity).
  - intros n Hn. rewrite Htier.
    by replace (n <? 50) with true by (symmetry; apply Z.ltb_lt; lia).
  - intros n Hn. rewrite Htier.
    replace (n <? 50) with false by (symmetry; apply Z.ltb_ge; lia).
    by replace (n <? 100) with true by (symmetry; apply Z.ltb_lt; lia).
  - intros n Hn. rewrite Htier.
    replace (n <? 50) with false by (symmetry; apply Z.ltb_ge; lia).
    by replace (n <? 100) with false by (symmetry; apply Z.ltb_ge; lia).
Qed.

Lemma get_talking_video_tiers_witness :
  Video.get_talking_video Sample.joinpath 10 (scheduler Sample.catalog 0 0)
    = Ok "videos/short.mp4"
  ∧ Video.get_talking_video Sample.joinpath 50 (scheduler Sample.catalog 0 0)
    = Ok "videos/medium.mp4"
  ∧ Video.get_talking_video Sample.joinpath 100 (scheduler Sample.catalog 0 0)
    = Ok "videos/long.mp4".
Proof.
  destruct (get_talking_video_tiers Sample.joinpath (scheduler Sample.catalog 0 0)
              "short.mp4" "medium.mp4" "long.mp4"
              eq_refl eq_refl eq_refl)
    as (_ & _ & _ & H10 & _ & _ & H50 & H100).
  exact (conj H10 (conj H50 H100)).
Defined.

(** *** C8 *)

(** C8 (fails on the code): the handler of [get_next_idle_video] looks up the
    default asset under the key ["00"]; in a catalog without that key an
    internal error (here a pattern step naming a video that is not configured)
    ends in a [KeyError] raised by the handler itself. *)
Lemma get_next_idle_video_raises_without_default :
  (Video.get_next_idle_video Sample.joinpath
     (scheduler Sample.catalog_without_default 0 0)).1
  = Raise KeyError.
Proof. vm_compute. reflexivity. Qed.

(** C8 (as the code has it): when the idle catalog has the default key
    ["00"], [get_next_idle_video] never raises for any pattern and cursor; on
    every internal error (among them a missing idle pattern, an index out of
    range, a step without a video key and a video key that is not in the
    catalog) it returns the default asset with the pattern-end flag true and
    leaves the cursor where it was. *)
Theorem get_next_idle_video_falls_back_to_default
    (joinpath : string -> string -> string) (self : Video.VideoManager)
    (fallback : string) :
  Video.idle (Video.cfg self) !! "00" = Some fallback ->
  let default := (Ok (joinpath (Video.video_dir self) fallback, true), self) in
  is_ok (Video.get_next_idle_video joinpath self).1 = true
  ∧ (∀ e, Video.next_idle_try joinpath self = Raise e ->
          Video.get_next_idle_video joinpath self = default)
  ∧ (Video.idle_pattern (Video.cfg self) = None ->
     Video.get_next_idle_video joinpath self = default)
  ∧ (∀ patterns, Video.idle_pattern (Video.cfg self) = Some patterns ->
       (Z.of_nat (length patterns) <= Video.current_idle_index self
        ∨ Video.current_idle_index self < - Z.of_nat (length patterns)) ->
       Video.get_next_idle_video joinpath self = default)
  ∧ (∀ patterns pattern, Video.idle_pattern (Video.cfg self) = Some patterns ->
       py_index patterns (Video.current_idle_index self) = Ok pattern ->
       pattern !! "video" = None ->
       Video.get_next_idle_video joinpath self = default)
  ∧ (∀ patterns pattern key,
       Video.idle_pattern (Video.cfg self) = Some patterns ->
       py_index patterns (Video.current_idle_index self) = Ok pattern ->
       pattern !! "video" = Some (PStr key) ->
       Video.idle (Video.cfg self) !! key = None ->
       Video.get_next_idle_video joinpath self = default).
Proof.
  intros H00 default.
  assert (Hraise : ∀ e, Video.next_idle_try joinpath self = Raise e ->
                        Video.get_next_idle_video joinpath self = default).
  { intros e He. unfold Video.get_next_idle_video, Video.idle_fallback.
    rewrite He, H00. done. }
  split_and!.
  - unfold Video.get_next_idle_video.
    destruct (Video.next_idle_try joinpath self) as [[[path flag] self']|e];
      [done|].
    unfold Video.idle_fallback. by rewrite H00.
  - done.
  - intros Hp. apply (Hraise KeyError). unfold Video.next_idle_try.
    by rewrite Hp.
  - intros patterns Hp Hout. apply (Hraise IndexError).
    unfold Video.next_idle_try. rewrite Hp. simpl.
    by rewrite py_index_out_of_range.
  - intros patterns pattern Hp Hi Hv. apply (Hraise KeyError).
    unfold Video.next_idle_try. rewrite Hp. simpl. rewrite Hi. simpl.
    by rewrite Hv.
  - intros patterns pattern key Hp Hi Hv Hk. apply (Hraise KeyError).
    unfold Video.next_idle_try. rewrite Hp. simpl. rewrite Hi. simpl.
    rewrite Hv. simpl. by rewrite Hk.
Qed.

Lemma get_next_idle_video_falls_back_to_default_witness :
  is_ok (Video.get_next_idle_video Sample.joinpath
           (scheduler Sample.catalog 7 0)).1 = true
  ∧ Video.get_next_idle_video Sample.joinpath (scheduler Sample.catalog 7 0)
    = (Ok (Sample.joinpath "videos" "idle0.mp4", true),
       scheduler Sample.catalog 7 0).
Proof.
  destruct (get_next_idle_video_falls_back_to_default Sample.joinpath
              (scheduler Sample.catalog 7 0) "idle0.mp4" eq_refl)
    as (Hok & _ & _ & Hrange & _).
  split; [exact Hok|].
  apply (Hrange [Sample.step "00" 2; Sample.step "01" 1] eq_refl).
  left. simpl. lia.
Defined.

(** ** Playback synchronizer *)

Example status_when_playing :
  Sync.get_playback_status
    (Sync.run [Sync.CallSyncMedia Sample.talk Sample.voice; Sync.RunTask 0;
               Sync.Elapse 3] (Sync.init 100))
  = {| Sync.st_is_playing := true;
       Sync.st_current_video := Some (PStr "videos/short.mp4");
       Sync.st_has_audio := true; Sync.st_elapsed_time := 3 |}.
Proof. vm_compute. reflexivity. Qed.

Example status_after_playback :
  Sync.get_playback_status
    (Sync.run [Sync.CallSyncMedia Sample.talk Sample.voice; Sync.RunTask 0;
               Sync.Elapse 5; Sync.RunTask 0] (Sync.init 100))
  = {| Sync.st_is_playing := false; Sync.st_current_video := None;
       Sync.st_has_audio := false; Sync.st_elapsed_time := 0 |}.
Proof. vm_compute. reflexivity. Qed.

(** *** C2 *)


(** *** Facts about the event loop *)

Section SyncFacts.
Import Sync.

Lemma others_done_insert (ts : list task) (t : nat) (tk : task) :
  others_done ts (Some t) -> others_done (<[t := tk]> ts) (Some t).
Proof.
  intros H i tk' Hi Hlive. destruct (decide (i = t)) as [->|Hne]; [done|].
  rewrite list_lookup_insert_ne in Hi by done. eauto.
Qed.

Lemma others_done_all (ts : list task) (t : nat) (tk : task) :
  others_done ts (Some t) -> ts !! t = Some tk -> state tk = Done ->
  ∀ i tk', ts !! i = Some tk' -> state tk' = Done.
Proof.
  intros H Ht Hd i tk' Hi. destruct (state tk') eqn:Hs; try done.
  all: assert (Some t = Some i) as [= ->] by (apply (H i tk' Hi); congruence).
  all: congruence.
Qed.

Lemma others_done_snoc (ts : list task) (tk : task) :
  (∀ i tk', ts !! i = Some tk' -> state tk' = Done) ->
  others_done (ts ++ [tk]) (Some (length ts)).
Proof.
  intros H i tk' Hi Hlive. f_equal.
  destruct (decide (i < length ts)%nat) as [Hlt|Hge].
  - rewrite lookup_app_l in Hi by done. specialize (H i tk' Hi). done.
  - apply lookup_lt_Some in Hi. rewrite length_app in Hi. simpl in Hi. lia.
Qed.

Lemma single_session_current t s b m ts pc nw ret tk :
  ts !! t = Some tk -> current_task m = Some t -> others_done ts (Some t) ->
  fields_fit s m -> (s ≠ Done -> is_playing m = true) -> caller_fits pc m ->
  single_session
    {| self := m; tasks := <[t := {| state := s; must_cancel := b |}]> ts;
       caller := pc; now := nw; returned := ret |}.
Proof.
  intros Ht Hc Ho Hf Hp Hpc.
  assert (Hlook : <[t := {| state := s; must_cancel := b |}]> ts !! t
                  = Some {| state := s; must_cancel := b |})
    by (apply list_lookup_insert_eq; by eapply lookup_lt_Some).
  unfold single_session, current_state. simpl. split_and!.
  - rewrite Hc. by apply others_done_insert.
  - by rewrite Hc, Hlook.
  - by rewrite Hc, Hlook.
  - done.
Qed.

Lemma done_current_state w t :
  current_task (self w) = Some t -> done w t = true -> current_state w = Done.
Proof.
  unfold done, current_state. intros ->.
  destruct (tasks w !! t) as [[[] ?]|]; done.
Qed.

Lemma not_done_lookup w t :
  done w t = false -> ∃ tk, tasks w !! t = Some tk ∧ state tk ≠ Done.
Proof.
  unfold done. destruct (tasks w !! t) as [[s ?]|]; [|done].
  intros H. eexists. split; [done|]. simpl. by destruct s.
Qed.

Lemma all_done w :
  others_done (tasks w) (current_task (self w)) -> current_state w = Done ->
  ∀ i tk, tasks w !! i = Some tk -> state tk = Done.
Proof.
  intros Ho Hd i tk Hi.
  assert (Hor : state tk = Done ∨ state tk ≠ Done) by (destruct (state tk); auto).
  destruct Hor as [?|Hlive]; [done|].
  specialize (Ho i tk Hi Hlive). unfold current_state in Hd.
  rewrite Ho, Hi in Hd. done.
Qed.

Lemma single_session_sync_media_rest v a w :
  others_done (tasks w) (current_task (self w)) -> current_state w = Done ->
  session_idle (self w) -> single_session (sync_media_rest v a w).
Proof.
  intros Ho Hd Hidle. pose proof (all_done w Ho Hd) as Hall.
  destruct w as [m ts pc nw ret]. simpl in *.
  unfold single_session, current_state, sync_media_rest. simpl.
  rewrite list_lookup_middle by done. simpl.
  split_and!; try done. by apply others_done_snoc.
Qed.

Lemma single_session_stop_rest w :
  others_done (tasks w) (current_task (self w)) -> current_state w = Done ->
  session_idle (self w) -> single_session (stop_rest w).
Proof.
  intros Ho Hd Hidle. destruct w as [m ts pc nw ret]. simpl in *.
  unfold single_session, current_state, stop_rest in *. simpl in *.
  destruct (current_task m) as [t|]; [destruct (ts !! t) as [tk|]|];
    simpl in *; rewrite ?Hd; by split_and!.
Qed.

Lemma single_session_idle_when_done w :
  single_session w -> current_state w = Done -> session_idle (self w).
Proof. intros (_ & Hf & _) Hd. by rewrite Hd in Hf. Qed.

Lemma single_session_stop_current_playback pc' k w :
  single_session w -> caller w = Free ->
  (∀ t, caller_fits (pc' t) (set_current_task t (self w))) ->
  (current_state w = Done -> single_session (k w)) ->
  single_session (stop_current_playback pc' k w).
Proof.
  intros Hinv Hfree Hpc' Hk. unfold stop_current_playback.
  destruct (current_task (self w)) as [t|] eqn:Hc.
  - destruct (done w t) eqn:Hdone.
    + apply Hk. by apply done_current_state with t.
    + apply not_done_lookup in Hdone as (tk & Ht & Hlive).
      destruct Hinv as (Ho & Hf & Hp & _).
      unfold current_state in Hf, Hp. rewrite Hc, Ht in Hf, Hp.
      unfold cancel. rewrite Ht. destruct w as [m ts pc nw ret]. simpl in *.
      rewrite Hc in Ho.
      eapply single_session_current; eauto.
      specialize (Hpc' t). destruct (pc' t); simpl in *; congruence.
  - apply Hk. unfold current_state. by rewrite Hc.
Qed.

Lemma step_single_session e w : single_session w -> single_session (step e w).
Proof.
  intros Hinv. destruct e as [v a| |t| |d]; simpl.
  - destruct (caller w) eqn:Hpc; [|done..].
    unfold sync_media.
    apply single_session_stop_current_playback; [done..|].
    intros Hd. apply single_session_sync_media_rest;
      [apply Hinv|done|by apply single_session_idle_when_done].
  - destruct (caller w) eqn:Hpc; [|done..].
    unfold stop.
    apply single_session_stop_current_playback; [done..|].
    intros Hd. apply single_session_stop_rest;
      [apply Hinv|done|by apply single_session_idle_when_done].
  - destruct w as [m ts pc nw ret].
    pose proof Hinv as (Ho & Hf & Hp & Hpc). simpl in *.
    unfold run_task. simpl.
    destruct (ts !! t) as [[s mc]|] eqn:Ht; [|done]. simpl.
    destruct s as [| |v|wake v a|]; [..|done].
    all: assert (Hc : current_task m = Some t) by (by apply (Ho t _ Ht)).
    all: unfold current_state in Hf, Hp; simpl in Hf, Hp;
      rewrite Hc, Ht in Hf, Hp; simpl in Hf, Hp; rewrite Hc in Ho;
      specialize (Hp ltac:(done)).
    all: unfold play_synced, play_from_audio, install_and_sleep,
           on_cancelled, on_error, on_complete, set_state, reset_session,
           with_self, with_tasks; simpl.
    all: repeat match goal with
           | |- context [if ?b then _ else _] => destruct b eqn:?; simpl
           | |- context [match ?l with [] => _ | _ :: _ => _ end] =>
               destruct l eqn:?; simpl
           | |- context [match default _ ?o with PInt _ => _ | PStr _ => _ end] =>
               destruct (default (PInt 0) o) eqn:?; simpl
           end.
    all: try done.
    all: eapply single_session_current; eauto; simpl;
      unfold session_idle, session_of; simpl; by eauto.
  - destruct (caller w) as [|t v a|t] eqn:Hpc; [done| |].
    + destruct (done w t) eqn:Hdone; [|done].
      assert (Hd : current_state w = Done).
      { apply done_current_state with t; [|done].
        destruct Hinv as (_ & _ & _ & H). by rewrite Hpc in H. }
      apply single_session_sync_media_rest;
        [apply Hinv|done|by apply single_session_idle_when_done].
    + destruct (done w t) eqn:Hdone; [|done].
      assert (Hd : current_state w = Done).
      { apply done_current_state with t; [|done].
        destruct Hinv as (_ & _ & _ & H). by rewrite Hpc in H. }
      apply single_session_stop_rest;
        [apply Hinv|done|by apply single_session_idle_when_done].
  - destruct w as [m ts pc nw ret]. exact Hinv.
Qed.

Lemma init_single_session t0 : single_session (init t0).
Proof. unfold single_session, current_state. simpl. by split_and!. Qed.

Lemma run_single_session evs w : single_session w -> single_session (run evs w).
Proof.
  revert w. induction evs as [|e evs IH]; intros w Hw; simpl; [done|].
  apply IH. by apply step_single_session.
Qed.


(** *** C10 *)

(** [sync_media] reaches the statements after [stop_current_playback] at once
    when no session is in flight, and on the caller's resumption when one had
    to be cancelled. *)
Lemma sync_media_when_idle (w : world) (v : video_data) (a : audio_data) :
  caller w = Free -> current_state w = Done ->
  step (CallSyncMedia v a) w = sync_media_rest v a w.
Proof.
  intros Hfree Hdone. simpl. rewrite Hfree.
  unfold sync_media, stop_current_playback, done.
  unfold current_state in Hdone.
  destruct (current_task (self w)) as [t'|]; [|done].
  destruct (tasks w !! t') as [[s ?]|]; [|done]. simpl in Hdone. by subst s.
Qed.

Lemma sync_media_when_resumed (w : world) (t : nat) (v : video_data)
    (a : audio_data) :
  caller w = AwaitSync t v a -> done w t = true ->
  step ResumeCaller w = sync_media_rest v a w.
Proof. intros Hpc Hdone. simpl. by rewrite Hpc, Hdone. Qed.

(** C10: when the metadata given to [sync_media] has no [duration] key, the
    call returns [True] and the session it creates installs its fields and
    sleeps for a delay of 0; on its next turn, with no time elapsed, the
    session ends: [is_playing] is false, video, audio and start time are back
    to idle, and nothing was raised nor left waiting. *)
Theorem playback_without_duration_ends_at_once
    (w : world) (v : video_data) (a : audio_data) :
  v !! "duration" = None ->
  let t := length (tasks w) in
  let created := sync_media_rest v a w in
  let started := step (RunTask t) created in
  let ended := step (RunTask t) started in
  returned created = true :: returned w
  ∧ current_task (self created) = Some t
  ∧ current_state started = Sleeping (now w) v a
  ∧ session_of (self started) v a
  ∧ current_state ended = Done
  ∧ is_playing (self ended) = false
  ∧ session_idle (self ended)
  ∧ now ended = now w.
Proof.
  intros Hdur t created started ended.
  assert (Hstarted : started
            = set_state t (Sleeping (now w) v a)
                (with_self created
                   (set_session (v !! "path") (Some a) (now w)
                      (set_queues [] [] (self created))))).
  { subst started created. destruct w as [m ts pc nw ret]. subst t. simpl.
    unfold run_task. simpl. rewrite list_lookup_middle by done. simpl.
    unfold play_synced. simpl. unfold play_from_audio. simpl.
    unfold install_and_sleep. simpl. rewrite Hdur. simpl.
    by rewrite Z.add_0_r. }
  destruct w as [m ts pc nw ret]. subst t created. simpl in *.
  assert (Hlook : ∀ x y : task,
            <[length ts := x]> (ts ++ [y]) !! length ts = Some x).
  { intros x y. apply list_lookup_insert_eq. rewrite length_app. simpl. lia. }
  subst ended. rewrite Hstarted.
  unfold current_state, run_task, set_state. simpl.
  rewrite !Hlook. simpl.
  replace (nw <=? nw) with true by (symmetry; apply Z.leb_refl).
  unfold on_complete, set_state, current_state. simpl.
  rewrite list_lookup_insert_eq
    by (rewrite length_insert, length_app; simpl; lia).
  done.
Qed.

Lemma playback_without_duration_ends_at_once_witness :
  let created := sync_media_rest Sample.still Sample.voice (init 100) in
  let started := step (RunTask 0) created in
  let ended := step (RunTask 0) started in
  returned created = [true]
  ∧ current_task (self created) = Some 0%nat
  ∧ current_state started = Sleeping 100 Sample.still Sample.voice
  ∧ session_of (self started) Sample.still Sample.voice
  ∧ current_state ended = Done
  ∧ is_playing (self ended) = false
  ∧ session_idle (self ended)
  ∧ now ended = 100.
Proof.
  exact (playback_without_duration_ends_at_once (init 100) Sample.still
           Sample.voice eq_refl).
Defined.

Example still_image_session_from_first_call :
  run [CallSyncMedia Sample.still Sample.voice; RunTask 0; RunTask 0] (init 100)
  = step (RunTask 0)
      (step (RunTask 0) (sync_media_rest Sample.still Sample.voice (init 100))).
Proof. reflexivity. Qed.

End SyncFacts.
(** * Further properties *)

(** ** Cache store: insertion, eviction order, sweep and persistence *)

Section CacheMore.

Context {V : Type}.
Implicit Types (d : Cache.dict V) (e : Cache.entry V) (k : string).
Implicit Types (s : Cache.CacheManager V).

Lemma dict_get_set_ne k k' e d :
  k' ≠ k -> Cache.dict_get k' (Cache.dict_set k e d) = Cache.dict_get k' d.
Proof.
  intros Hne. induction d as [|[k0 e0] d IH]; simpl.
  - by rewrite decide_False.
  - destruct (decide (k0 = k)) as [->|H0]; simpl.
    + by rewrite !decide_False.
    + by rewrite IH.
Qed.

Lemma dict_set_fresh k e d :
  k ∉ d.*1 -> Cache.dict_set k e d = d ++ [(k, e)].
Proof.
  induction d as [|[k0 e0] d IH]; simpl; [done|].
  intros Hk. apply not_elem_of_cons in Hk as [Hne Hk].
  rewrite decide_False by done. by rewrite IH.
Qed.

Lemma dict_del_absent k d : k ∉ d.*1 -> Cache.dict_del k d = d.
Proof.
  induction d as [|[k0 e0] d IH]; simpl; [done|].
  intros Hk. apply not_elem_of_cons in Hk as [Hne Hk].
  rewrite decide_False by done. by rewrite IH.
Qed.

Lemma dict_del_middle k e (l1 l2 : Cache.dict V) :
  NoDup (l1 ++ (k, e) :: l2).*1 ->
  Cache.dict_del k (l1 ++ (k, e) :: l2) = l1 ++ l2.
Proof.
  induction l1 as [|[k0 e0] l1 IH]; simpl.
  - intros Hnd. apply NoDup_cons in Hnd as [Hk _].
    rewrite decide_True by done. by apply dict_del_absent.
  - intros Hnd. apply NoDup_cons in Hnd as [Hk0 Hnd].
    rewrite decide_False.
    + by rewrite IH.
    + intros ->. apply Hk0. rewrite fmap_app. apply elem_of_app. right.
      simpl. apply elem_of_cons. by left.
Qed.

(** [min] keeps its current best against anything that is not smaller. *)
Lemma fold_min_keeps {A} (key : A -> Z) (l : list A) (x : A) :
  (∀ y, y ∈ l -> key x <= key y) ->
  fold_left (λ best y, if key y <? key best then y else best) l x = x.
Proof.
  induction l as [|z l IH]; simpl; [done|]. intros Hle.
  replace (key z <? key x) with false.
  - apply IH. intros y Hy. apply Hle, elem_of_cons. by right.
  - symmetry. apply Z.ltb_ge, Hle, elem_of_cons. by left.
Qed.

Lemma fold_min_switches {A} (key : A -> Z) (l1 l2 : list A) (b x : A) :
  key x < key b -> (∀ y, y ∈ l1 -> key x < key y) ->
  (∀ y, y ∈ l2 -> key x <= key y) ->
  fold_left (λ best y, if key y <? key best then y else best)
    (l1 ++ x :: l2) b = x.
Proof.
  revert b. induction l1 as [|z l1 IH]; intros b Hb H1 H2; simpl.
  - replace (key x <? key b) with true by (symmetry; by apply Z.ltb_lt).
    by apply fold_min_keeps.
  - assert (Hz : key x < key z) by (apply H1, elem_of_cons; by left).
    assert (H1' : ∀ y, y ∈ l1 -> key x < key y)
      by (intros y Hy; apply H1, elem_of_cons; by right).
    destruct (key z <? key b); by apply IH.
Qed.

(** [min] returns the first of the items of least key. *)
Lemma py_min_first_least {A} (key : A -> Z) (l1 l2 : list A) (x : A) :
  (∀ y, y ∈ l1 -> key x < key y) -> (∀ y, y ∈ l2 -> key x <= key y) ->
  Cache.py_min key (l1 ++ x :: l2) = Some x.
Proof.
  intros H1 H2. destruct l1 as [|b l1]; simpl; f_equal.
  - by apply fold_min_keeps.
  - apply fold_min_switches; [|intros y Hy|done].
    + apply H1, elem_of_cons. by left.
    + apply H1, elem_of_cons. by right.
Qed.

Lemma evict_oldest_total s :
  0 < Cache.max_size s -> ∃ s1, Cache.evict_oldest s = Ok s1
    ∧ Cache.max_size s1 = Cache.max_size s ∧ Cache.ttl s1 = Cache.ttl s.
Proof.
  intros Hpos. unfold Cache.evict_oldest.
  destruct (Z.geb_spec (Z.of_nat (length (Cache.cache s))) (Cache.max_size s)).
  - destruct (Cache.cache s) as [|x l] eqn:Hc; simpl in *; [lia|].
    eexists. split; [done|]. done.
  - eexists. split; [done|]. done.
Qed.

Lemma set_memory_eq json_dumps now f key v s s1 (dk : Cache.disk) :
  Cache.evict_oldest s = Ok s1 ->
  (Cache.set json_dumps now f key v s dk).1.2
  = Cache.with_cache s1
      (Cache.dict_set key (Cache.Entry v now) (Cache.cache s1)).
Proof.
  intros Hev. unfold Cache.set. rewrite Hev.
  match goal with |- context [Cache.save_cache ?j ?f ?s ?d] =>
    pose proof (save_cache_memory j f s d) as Hmem;
    destruct (Cache.save_cache j f s d) as [[o s3] d'] end.
  simpl in Hmem. subst s3. by destruct o.
Qed.

End CacheMore.

(** X1: with a positive size limit, a value written by [set] is what [get]
    returns for that key at any later reading of the clock within the
    time-to-live, whatever happened to the save; the hit leaves the store as
    [set] left it. *)
Theorem set_then_get {V : Type} (json_dumps : Cache.dict V -> string)
    (now later : Z) (f : Cache.faults) (key : string) (v : V)
    (s : Cache.CacheManager V) (dk : Cache.disk) :
  0 < Cache.max_size s ->
  later - now < Cache.ttl s ->
  let after := (Cache.set json_dumps now f key v s dk).1.2 in
  Cache.get later key after = (Some v, after).
Proof.
  intros Hpos Hfresh after.
  destruct (evict_oldest_total s Hpos) as (s1 & Hev & _ & Httl).
  subst after. rewrite (set_memory_eq _ _ _ _ _ _ s1) by done.
  unfold Cache.get. simpl. rewrite dict_get_set_eq. simpl. rewrite Httl.
  by replace (later - now <? Cache.ttl s) with true
    by (symmetry; by apply Z.ltb_lt).
Qed.

Lemma set_then_get_witness :
  Cache.get 20 "c"
    (Cache.set Sample.dumps 10 rename_fault "c" "z" two_entries no_files).1.2
  = (Some "z",
     (Cache.set Sample.dumps 10 rename_fault "c" "z" two_entries no_files).1.2).
Proof.
  apply (set_then_get Sample.dumps 10 20 rename_fault "c" "z" two_entries
           no_files); simpl; lia.
Defined.

(** X2: below the size limit [set] evicts nothing: the key holds the new
    value with the current time, every other key keeps its entry, and the
    mapping grows by one for a new key and keeps its length for a key it
    already had. *)
Theorem set_below_limit_keeps_entries {V : Type}
    (json_dumps : Cache.dict V -> string) (now : Z) (f : Cache.faults)
    (key : string) (v : V) (s : Cache.CacheManager V) (dk : Cache.disk) :
  Z.of_nat (length (Cache.cache s)) < Cache.max_size s ->
  let after := (Cache.set json_dumps now f key v s dk).1.2 in
  Cache.dict_get key (Cache.cache after) = Some (Cache.Entry v now)
  ∧ (∀ k, k ≠ key ->
          Cache.dict_get k (Cache.cache after) = Cache.dict_get k (Cache.cache s))
  ∧ (key ∉ (Cache.cache s).*1 ->
     Cache.cache after = Cache.cache s ++ [(key, Cache.Entry v now)])
  ∧ (key ∈ (Cache.cache s).*1 ->
     length (Cache.cache after) = length (Cache.cache s)).
Proof.
  intros Hlt after. subst after.
  rewrite (set_memory_eq _ _ _ _ _ _ s) by (by apply evict_oldest_below_limit).
  simpl. split_and!.
  - apply dict_get_set_eq.
  - intros k Hk. by apply dict_get_set_ne.
  - apply dict_set_fresh.
  - generalize (Cache.cache s). intros d Hin.
    induction d as [|[k0 e0] d IH]; simpl.
    + by apply elem_of_nil in Hin.
    + destruct (decide (k0 = key)) as [->|Hne]; simpl; [done|].
      f_equal. apply IH. simpl in Hin.
      apply elem_of_cons in Hin as [?|?]; [congruence|done].
Qed.

Lemma set_below_limit_keeps_entries_witness :
  let s := Cache.Mk [("a", Cache.Entry "x" 1)] 2 3600 in
  let after := (Cache.set Sample.dumps 5 Cache.no_faults "b" "y" s no_files).1.2 in
  Cache.dict_get "b" (Cache.cache after) = Some (Cache.Entry "y" 5)
  ∧ Cache.dict_get "a" (Cache.cache after) = Some (Cache.Entry "x" 1).
Proof.
  destruct (set_below_limit_keeps_entries Sample.dumps 5 Cache.no_faults "b" "y"
              (Cache.Mk [("a", Cache.Entry "x" 1)] 2 3600) no_files)
    as (Hb & Ha & _); [simpl; lia|].
  split; [exact Hb|]. rewrite Ha; [reflexivity|discriminate].
Defined.

(** X3: a new key written to a store at its size limit takes the place of
    the oldest entry, and of the earliest inserted one when several entries
    share the least timestamp: every other entry stays, in order, and the new
    entry goes last. *)
Theorem set_at_limit_evicts_first_oldest {V : Type}
    (json_dumps : Cache.dict V -> string) (now : Z) (f : Cache.faults)
    (key : string) (v : V) (s : Cache.CacheManager V) (dk : Cache.disk)
    (l1 l2 : Cache.dict V) (k0 : string) (e0 : Cache.entry V) :
  Cache.cache s = l1 ++ (k0, e0) :: l2 ->
  NoDup (Cache.cache s).*1 ->
  key ∉ (Cache.cache s).*1 ->
  Cache.max_size s <= Z.of_nat (length (Cache.cache s)) ->
  (∀ p, p ∈ l1 -> Cache.timestamp e0 < Cache.timestamp p.2) ->
  (∀ p, p ∈ l2 -> Cache.timestamp e0 <= Cache.timestamp p.2) ->
  Cache.cache (Cache.set json_dumps now f key v s dk).1.2
  = l1 ++ l2 ++ [(key, Cache.Entry v now)].
Proof.
  intros Hc Hnd Hkey Hfull H1 H2.
  assert (Hev : Cache.evict_oldest s = Ok (Cache.with_cache s (l1 ++ l2))).
  { unfold Cache.evict_oldest.
    replace (Z.of_nat (length (Cache.cache s)) >=? Cache.max_size s) with true
      by (symmetry; apply Z.geb_le; lia).
    rewrite Hc.
    rewrite (py_min_first_least
               (λ x : string * Cache.entry V, Cache.timestamp x.2) l1 l2 (k0, e0))
      by done.
    simpl. rewrite dict_del_middle; [done|]. by rewrite <- Hc. }
  rewrite (set_memory_eq _ _ _ _ _ _ _ _ Hev). simpl.
  rewrite dict_set_fresh; [by rewrite <- app_assoc|].
  rewrite Hc in Hkey. rewrite fmap_app in *. simpl in Hkey.
  intros Hin. apply Hkey. apply elem_of_app in Hin as [?|?];
    apply elem_of_app; [by left|right]. apply elem_of_cons. by right.
Qed.

Lemma set_at_limit_evicts_first_oldest_witness :
  let s := Cache.Mk [("a", Cache.Entry "x" 7); ("b", Cache.Entry "y" 5);
                     ("c", Cache.Entry "z" 5)] 3 3600 in
  Cache.cache (Cache.set Sample.dumps 9 Cache.no_faults "d" "w" s no_files).1.2
  = [("a", Cache.Entry "x" 7)] ++ [("c", Cache.Entry "z" 5)]
      ++ [("d", Cache.Entry "w" 9)].
Proof.
  apply (set_at_limit_evicts_first_oldest Sample.dumps 9 Cache.no_faults "d" "w"
           (Cache.Mk [("a", Cache.Entry "x" 7); ("b", Cache.Entry "y" 5);
                      ("c", Cache.Entry "z" 5)] 3 3600) no_files
           [("a", Cache.Entry "x" 7)] [("c", Cache.Entry "z" 5)] "b"
           (Cache.Entry "y" 5)).
  - reflexivity.
  - apply (bool_decide_unpack _). by vm_compute.
  - apply (bool_decide_unpack _). by vm_compute.
  - simpl. lia.
  - intros p Hp. apply list_elem_of_singleton in Hp. subst p. simpl. lia.
  - intros p Hp. apply list_elem_of_singleton in Hp. subst p. simpl. lia.
Defined.

Section CacheSweep.

Context {V : Type}.
Implicit Types (d : Cache.dict V) (k : string) (s : Cache.CacheManager V).

Lemma dict_del_filter k (d : list (string * Cache.entry V)) :
  Cache.dict_del k d = filter (λ p : string * Cache.entry V, p.1 ≠ k) d.
Proof.
  induction d as [|[k0 e0] d IH]; [done|]. simpl. rewrite filter_cons. simpl.
  destruct (decide (k0 = k)) as [->|Hne].
  - by rewrite decide_False by (by intros ?).
  - by rewrite decide_True, IH by done.
Qed.

Lemma foldl_del_filter (ks : list string) (d : list (string * Cache.entry V)) :
  foldl (λ c k, Cache.dict_del k c) d ks
  = filter (λ p : string * Cache.entry V, p.1 ∉ ks) d.
Proof.
  revert d. induction ks as [|k ks IH]; intros d; simpl.
  - induction d as [|p d IHd]; [done|].
    rewrite filter_cons_True by apply not_elem_of_nil. by rewrite <- IHd.
  - rewrite IH, dict_del_filter, list_filter_filter.
    apply list_filter_iff. intros p. rewrite not_elem_of_cons. tauto.
Qed.

Lemma filter_in_ext {A} (P Q : A -> Prop) `{!∀ x, Decision (P x)}
    `{!∀ x, Decision (Q x)} (l : list A) :
  (∀ x, x ∈ l -> P x ↔ Q x) -> filter P l = filter Q l.
Proof.
  induction l as [|a l IH]; [done|]. intros Hext.
  assert (Ha : P a ↔ Q a) by (apply Hext, elem_of_cons; by left).
  assert (Hl : filter P l = filter Q l)
    by (apply IH; intros x Hx; apply Hext, elem_of_cons; by right).
  destruct (decide (P a)).
  - rewrite !filter_cons_True by tauto. by rewrite Hl.
  - rewrite !filter_cons_False by tauto. done.
Qed.

Lemma filter_none {A} (P : A -> Prop) `{!∀ x, Decision (P x)} (l : list A) :
  (∀ x, x ∈ l -> ¬ P x) -> filter P l = [].
Proof.
  induction l as [|a l IH]; [done|]. intros Hno.
  rewrite filter_cons_False by (apply Hno, elem_of_cons; by left).
  apply IH. intros x Hx. apply Hno, elem_of_cons. by right.
Qed.

Lemma unique_key (d : list (string * Cache.entry V)) p q :
  NoDup d.*1 -> p ∈ d -> q ∈ d -> p.1 = q.1 -> p = q.
Proof.
  induction d as [|x d IH]; simpl; intros Hnd Hp Hq Heq.
  - by apply elem_of_nil in Hp.
  - apply NoDup_cons in Hnd as [Hx Hnd].
    apply elem_of_cons in Hp as [->|Hp]; apply elem_of_cons in Hq as [->|Hq].
    + done.
    + exfalso. apply Hx. rewrite Heq. by apply list_elem_of_fmap_2.
    + exfalso. apply Hx. rewrite <- Heq. by apply list_elem_of_fmap_2.
    + by apply IH.
Qed.

Lemma fresh_items_entries (now ttl_ : Z) (entries : list (string * Cache.entry V)) :
  Cache.fresh_items now ttl_ (prod_map id Some <$> entries)
  = Some (filter (λ p : string * Cache.entry V,
                    now - Cache.timestamp p.2 < ttl_) entries).
Proof.
  induction entries as [|[k0 e0] entries IH]; [done|].
  unfold fmap in *. simpl. rewrite IH. f_equal.
  rewrite filter_cons. simpl.
  destruct (Z.ltb_spec (now - Cache.timestamp e0) ttl_).
  - by rewrite decide_True.
  - rewrite decide_False; [done|lia].
Qed.

Lemma with_cache_same s : Cache.with_cache s (Cache.cache s) = s.
Proof. by destruct s. Qed.

End CacheSweep.

(** X4: [clear_expired] leaves exactly the entries with
    [now - timestamp < ttl], in their order; when none has expired it writes
    nothing and changes nothing, and otherwise it saves the swept mapping. *)
Theorem clear_expired_sweeps {V : Type} (json_dumps : Cache.dict V -> string)
    (now : Z) (f : Cache.faults) (s : Cache.CacheManager V) (dk : Cache.disk) :
  NoDup (Cache.cache s).*1 ->
  let fresh (p : string * Cache.entry V) :=
    now - Cache.timestamp p.2 < Cache.ttl s in
  let out := Cache.clear_expired json_dumps now f s dk in
  Cache.cache out.1.2 = filter fresh (Cache.cache s)
  ∧ Cache.max_size out.1.2 = Cache.max_size s
  ∧ Cache.ttl out.1.2 = Cache.ttl s
  ∧ ((∀ p, p ∈ Cache.cache s -> fresh p) -> out = (Ok (), s, dk))
  ∧ (∀ p, p ∈ Cache.cache s -> ¬ fresh p ->
       out.2 = (Cache.save_cache json_dumps f out.1.2 dk).2).
Proof.
  intros Hnd fresh out.
  set (expired := (filter (λ p : string * Cache.entry V,
                             now - Cache.timestamp p.2 >= Cache.ttl s)
                     (Cache.cache s)).*1).
  set (s1 := Cache.with_cache s
               (foldl (λ c k, Cache.dict_del k c) (Cache.cache s) expired)).
  assert (Hs1 : Cache.cache s1 = filter fresh (Cache.cache s)).
  { subst s1. simpl. rewrite foldl_del_filter. apply filter_in_ext.
    intros p Hp. subst expired fresh. simpl. split.
    - intros Hnot. destruct (Z_lt_ge_dec (now - Cache.timestamp p.2) (Cache.ttl s))
        as [?|Hge]; [done|].
      exfalso. apply Hnot. apply list_elem_of_fmap_2.
      apply list_elem_of_filter. done.
    - intros Hfresh Hin. apply list_elem_of_fmap in Hin as (q & Hq1 & Hq).
      apply list_elem_of_filter in Hq as [Hexp Hq].
      assert (p = q) by (by apply (unique_key (Cache.cache s))).
      subst q. lia. }
  assert (Hout : out = match expired with
                       | [] => (Ok (), s1, dk)
                       | _ :: _ =>
                           match Cache.save_cache json_dumps f s1 dk with
                           | (Cache.SaveRaised, s2, d') => (Raise OSError, s2, d')
                           | (_, s2, d') => (Ok (), s2, d')
                           end
                       end) by reflexivity.
  pose proof (save_cache_memory json_dumps f s1 dk) as Hmem.
  assert (Hmemory : out.1.2 = s1).
  { rewrite Hout. destruct expired; [done|].
    destruct (Cache.save_cache json_dumps f s1 dk) as [[o s2] d'].
    simpl in Hmem. subst s2. by destruct o. }
  rewrite Hmemory. split_and!; try done.
  - intros Hall. rewrite Hout.
    assert (Hnone : expired = []).
    { subst expired. unfold Cache.dict. rewrite filter_none; [done|].
      intros p Hp. specialize (Hall p Hp). unfold fresh in Hall. lia. }
    rewrite Hnone. f_equal. f_equal. subst s1. rewrite Hnone. simpl.
    apply with_cache_same.
  - intros p Hp Hold. rewrite Hout.
    assert (Hsome : p.1 ∈ expired).
    { apply list_elem_of_fmap_2. apply list_elem_of_filter. split; [|done].
      unfold fresh in Hold. lia. }
    destruct expired; [by apply elem_of_nil in Hsome|].
    destruct (Cache.save_cache json_dumps f s1 dk) as [[o s2] d']. by destruct o.
Qed.

Lemma clear_expired_sweeps_witness :
  Cache.cache (Cache.clear_expired Sample.dumps 3601 Cache.no_faults
                 two_entries no_files).1.2
  = filter (λ p : string * Cache.entry string,
              3601 - Cache.timestamp p.2 < Cache.ttl two_entries)
      (Cache.cache two_entries).
Proof.
  apply (clear_expired_sweeps Sample.dumps 3601 Cache.no_faults two_entries
           no_files).
  apply (bool_decide_unpack _). by vm_compute.
Defined.

(** X5: a save without failure followed by the load of a new store over the
    same files gives back the saved entries that are still within the
    time-to-live, in order, provided the reader reads back what the writer
    wrote. *)
Theorem save_then_load {V : Type} (json_dumps : Cache.dict V -> string)
    (json_load : string -> option (list (string * option (Cache.entry V))))
    (s : Cache.CacheManager V) (dk : Cache.disk) (now max_size_ ttl_ : Z) :
  json_load (json_dumps (Cache.cache s))
    = Some (prod_map id Some <$> Cache.cache s) ->
  let saved := Cache.save_cache json_dumps Cache.no_faults s dk in
  saved.1.1 = Cache.Saved
  ∧ Cache.cache_file saved.2 = Some (json_dumps (Cache.cache s))
  ∧ Cache.cache (Cache.init json_load now saved.2 max_size_ ttl_)
    = filter (λ p : string * Cache.entry V, now - Cache.timestamp p.2 < ttl_)
        (Cache.cache s).
Proof.
  intros Hcodec saved.
  assert (Hfile : saved.1.1 = Cache.Saved
                  ∧ Cache.cache_file saved.2 = Some (json_dumps (Cache.cache s))).
  { subst saved. unfold Cache.save_cache, Cache.save_try. simpl.
    by destruct (Cache.cache_file dk). }
  destruct Hfile as [Hok Hfile]. split_and!; [done..|].
  unfold Cache.init, Cache.load_cache. simpl. rewrite Hfile, Hcodec.
  by rewrite fresh_items_entries.
Qed.

Lemma save_then_load_witness :
  Cache.cache
    (Cache.init Sample.load 3601
       (Cache.save_cache Sample.dumps Cache.no_faults two_entries no_files).2
       2 3600)
  = filter (λ p : string * Cache.entry string, 3601 - Cache.timestamp p.2 < 3600)
      (Cache.cache two_entries).
Proof.
  apply (save_then_load Sample.dumps Sample.load two_entries no_files 3601 2 3600).
  reflexivity.
Defined.

(** X6: when the rename of the backing file to the backup path succeeds, the
    text the backing file held is never lost, whatever fails afterwards: after
    a complete write it is the backup, after a failed write it is the backing
    file again, and when the restoring rename fails too it stays in the
    backup while the exception leaves [save_cache]. *)
Theorem save_cache_keeps_previous_text {V : Type}
    (json_dumps : Cache.dict V -> string) (f : Cache.faults)
    (s : Cache.CacheManager V) (old : string) (bak : option string) :
  Cache.backup_rename_fails f = false ->
  let out := Cache.save_cache json_dumps f s
               {| Cache.cache_file := Some old; Cache.backup_file := bak |} in
  (Cache.write f = Cache.WriteOk ->
     out = (Cache.Saved, s,
            {| Cache.cache_file := Some (json_dumps (Cache.cache s));
               Cache.backup_file := Some old |}))
  ∧ (Cache.write f ≠ Cache.WriteOk -> Cache.restore_rename_fails f = false ->
     out = (Cache.SaveFailed, s,
            {| Cache.cache_file := Some old; Cache.backup_file := None |}))
  ∧ (Cache.write f ≠ Cache.WriteOk -> Cache.restore_rename_fails f = true ->
     out.1.1 = Cache.SaveRaised ∧ Cache.backup_file out.2 = Some old)
  ∧ (Cache.cache_file out.2 = Some old ∨ Cache.backup_file out.2 = Some old).
Proof.
  intros Hb out. subst out. unfold Cache.save_cache, Cache.save_try. simpl.
  rewrite Hb. simpl.
  destruct (Cache.write f), (Cache.restore_rename_fails f); simpl;
    split_and!; try done; auto.
Qed.

Lemma save_cache_keeps_previous_text_witness :
  let out := Cache.save_cache Sample.dumps (dump_fault "a=") two_entries
               {| Cache.cache_file := Some "a=x@1;";
                  Cache.backup_file := Some "stale" |} in
  Cache.cache_file out.2 = Some "a=x@1;" ∨ Cache.backup_file out.2 = Some "a=x@1;".
Proof.
  exact (proj2 (proj2 (proj2
           (save_cache_keeps_previous_text Sample.dumps (dump_fault "a=")
              two_entries "a=x@1;" (Some "stale") eq_refl)))).
Defined.

(** ** Scheduler: fallbacks, cursor range and the pattern cycle *)

Section SchedulerMore.

Variable joinpath : string -> string -> string.

Lemma idle_calls_app (n m : nat) (self : Video.VideoManager) :
  Video.idle_calls joinpath (n + m) self
  = ((Video.idle_calls joinpath n self).1
       ++ (Video.idle_calls joinpath m (Video.idle_calls joinpath n self).2).1,
     (Video.idle_calls joinpath m (Video.idle_calls joinpath n self).2).2).
Proof.
  revert self. induction n as [|n IH]; intros self; simpl.
  - by destruct (Video.idle_calls joinpath m self).
  - destruct (Video.get_next_idle_video joinpath self) as [r self1].
    rewrite IH.
    destruct (Video.idle_calls joinpath n self1) as [rs self2]. simpl.
    by destruct (Video.idle_calls joinpath m self2).
Qed.

(** The calls spent on one well-formed step. *)
Lemma idle_calls_one_step dir c idx patterns st name r :
  Video.idle_pattern c = Some patterns ->
  patterns !! idx = Some st ->
  Plan.step_plan c st = Some (name, r) ->
  Video.idle_calls joinpath (Plan.plays r) (Video.Mk dir c (Z.of_nat idx) 0)
  = (Plan.step_results joinpath dir (name, r),
     Video.Mk dir c ((Z.of_nat idx + 1) `mod` Z.of_nat (length patterns)) 0).
Proof.
  intros Hp Hst Hplan. unfold Plan.step_plan in Hplan.
  destruct (st !! "video") as [[|key]|] eqn:Hkey; try done.
  destruct (st !! "repeat") as [[r'|]|] eqn:Hrep; try done.
  destruct (Video.idle c !! key) as [name'|] eqn:Hname; [|done].
  injection Hplan as -> ->.
  assert (Hidx : patterns !! Z.to_nat (Z.of_nat idx) = Some st)
    by (by rewrite Nat2Z.id).
  unfold Plan.step_results, Plan.plays. simpl.
  destruct (Z_le_gt_dec 1 r) as [Hr|Hr].
  - replace (Z.to_nat (Z.max 1 r)) with (S (Z.to_nat r - 1)) at 1 by lia.
    replace (Z.to_nat (Z.max 1 r) - 1)%nat with (Z.to_nat r - 1)%nat by lia.
    apply (idle_calls_countdown joinpath dir c (Z.of_nat idx) patterns st key
             name r); try done; lia.
  - replace (Z.to_nat (Z.max 1 r)) with 1%nat by lia. simpl.
    rewrite (get_next_idle_video_step joinpath dir c (Z.of_nat idx) 0 patterns
               st key name r) by (try done; lia).
    by replace (0 >=? r - 1) with true by (symmetry; apply Z.geb_le; lia).
Qed.

Lemma idle_calls_walk dir c patterns :
  Video.idle_pattern c = Some patterns ->
  ∀ suffix plan prefix,
    patterns = prefix ++ suffix -> suffix ≠ [] ->
    Forall2 (λ st p, Plan.step_plan c st = Some p) suffix plan ->
    Video.idle_calls joinpath (sum_list (Plan.plays <$> plan.*2))
      (Video.Mk dir c (Z.of_nat (length prefix)) 0)
    = (concat (Plan.step_results joinpath dir <$> plan), Video.Mk dir c 0 0).
Proof.
  intros Hp suffix plan. revert suffix.
  induction plan as [|[name r] plan IH]; intros suffix prefix Hsplit Hne Hall.
  - apply Forall2_nil_inv_r in Hall. done.
  - apply Forall2_cons_inv_r in Hall as (st & rest & Hst & Hall & ->).
    assert (Hlook : patterns !! length prefix = Some st)
      by (rewrite Hsplit; by apply list_lookup_middle).
    change (sum_list (Plan.plays <$> ((name, r) :: plan).*2))
      with (Plan.plays r + sum_list (Plan.plays <$> plan.*2))%nat.
    rewrite idle_calls_app.
    rewrite (idle_calls_one_step dir c (length prefix) patterns st name r)
      by done.
    simpl.
    assert (Hlen : length patterns = (length prefix + S (length rest))%nat)
      by (rewrite Hsplit, length_app; done).
    destruct rest as [|st' rest].
    + apply Forall2_nil_inv_l in Hall. subst plan. simpl.
      replace (Z.of_nat (length prefix) + 1) with (Z.of_nat (length patterns))
        by (rewrite Hlen; simpl; lia).
      rewrite Z_mod_same_full. by rewrite app_nil_r.
    + rewrite Z.mod_small by (rewrite Hlen; simpl; lia).
      replace (Z.of_nat (length prefix) + 1)
        with (Z.of_nat (length (prefix ++ [st])))
        by (rewrite length_app; simpl; lia).
      rewrite (IH (st' :: rest) (prefix ++ [st])); [done| |done|done].
      by rewrite <- app_assoc.
Qed.

Lemma get_next_idle_video_keeps_range (self : Video.VideoManager) patterns :
  Video.idle_pattern (Video.cfg self) = Some patterns ->
  0 <= Video.current_idle_index self < Z.of_nat (length patterns) ->
  0 <= Video.current_repeat self ->
  let self' := (Video.get_next_idle_video joinpath self).2 in
  Video.cfg self' = Video.cfg self
  ∧ Video.video_dir self' = Video.video_dir self
  ∧ 0 <= Video.current_idle_index self' < Z.of_nat (length patterns)
  ∧ 0 <= Video.current_repeat self'.
Proof.
  intros Hp Hidx Hrep. unfold Video.get_next_idle_video.
  destruct (Video.next_idle_try joinpath self) as [[[path flag] self1]|e] eqn:Htry;
    simpl; [|done].
  unfold Video.next_idle_try in Htry. rewrite Hp in Htry. simpl in Htry.
  destruct (py_index patterns (Video.current_idle_index self)) as [st|];
    simpl in Htry; [|done].
  destruct (st !! "video") as [key|]; simpl in Htry; [|done].
  destruct (Video.idle_lookup (Video.idle (Video.cfg self)) key) as [name|];
    simpl in Htry; [|done].
  destruct (st !! "repeat") as [r|]; simpl in Htry; [|done].
  destruct (Video.minus_one r) as [last|]; simpl in Htry; [|done].
  destruct (Video.current_repeat self >=? last); injection Htry as <- <- <-;
    simpl; split_and!; try done; try lia.
  - apply Z.mod_pos_bound. lia.
  - apply Z.mod_pos_bound. lia.
Qed.

End SchedulerMore.

(** X7: [get_talking_video] raises only when no talking clip is configured,
    and then with [IndexError]; with at least one clip it returns the clip of
    the length's tier when the list reaches that far and the first clip
    otherwise. *)
Theorem get_talking_video_fallback
    (joinpath : string -> string -> string) (self : Video.VideoManager)
    (text_length : Z) :
  match Video.talking (Video.cfg self) with
  | [] => Video.get_talking_video joinpath text_length self = Raise IndexError
  | first :: _ =>
      Video.get_talking_video joinpath text_length self
      = Ok (joinpath (Video.video_dir self)
              (default first
                 (Video.talking (Video.cfg self) !! Plan.tier text_length)))
  end.
Proof.
  unfold Video.get_talking_video, Video.talking_try, Plan.tier.
  destruct (Video.talking (Video.cfg self)) as [|c0 [|c1 [|c2 rest]]];
    destruct (text_length <? 50); try destruct (text_length <? 100);
    try done.
  - by rewrite (py_index_in_range _ 1 c1).
  - by rewrite (py_index_in_range _ 2 c2).
Qed.

(** X8: a cursor that is on a step of the pattern stays on a step of the
    pattern, with a repeat counter that is not negative, through any number of
    [get_next_idle_video] calls, whether they succeed or fall back; the
    configuration and the video directory are never changed. *)
Theorem idle_cursor_stays_in_range
    (joinpath : string -> string -> string) (n : nat)
    (self : Video.VideoManager) (patterns : list (gmap string pyval)) :
  Video.idle_pattern (Video.cfg self) = Some patterns ->
  0 <= Video.current_idle_index self < Z.of_nat (length patterns) ->
  0 <= Video.current_repeat self ->
  let self' := (Video.idle_calls joinpath n self).2 in
  Video.cfg self' = Video.cfg self
  ∧ Video.video_dir self' = Video.video_dir self
  ∧ 0 <= Video.current_idle_index self' < Z.of_nat (length patterns)
  ∧ 0 <= Video.current_repeat self'.
Proof.
  revert self. induction n as [|n IH]; intros self Hp Hidx Hrep; simpl; [done|].
  pose proof (get_next_idle_video_keeps_range joinpath self patterns Hp Hidx Hrep)
    as (Hc & Hd & Hi & Hr).
  destruct (Video.get_next_idle_video joinpath self) as [r self1]. simpl in *.
  specialize (IH self1). rewrite Hc in IH. specialize (IH Hp Hi Hr).
  destruct (Video.idle_calls joinpath n self1) as [rs self2]. simpl in *.
  destruct IH as (? & ? & ? & ?). split_and!; first [done|congruence|lia].
Qed.

Lemma idle_cursor_stays_in_range_witness :
  let self' := (Video.idle_calls Sample.joinpath 5 (scheduler Sample.catalog 1 0)).2 in
  Video.cfg self' = Sample.catalog
  ∧ Video.video_dir self' = "videos"
  ∧ 0 <= Video.current_idle_index self' < Z.of_nat 2
  ∧ 0 <= Video.current_repeat self'.
Proof.
  apply (idle_cursor_stays_in_range Sample.joinpath 5
           (scheduler Sample.catalog 1 0)
           [Sample.step "00" 2; Sample.step "01" 1]);
    [reflexivity | simpl; lia | simpl; lia].
Defined.

(** X9: when every step of the idle pattern names a configured video and
    carries a number as repeat count, the calls of one pass over the pattern,
    started on the first step with [current_repeat = 0], return for each step
    in turn its path, [max 1 repeat] times, with the pattern-end flag on the
    last of them only, and bring the cursor back to the first step: the idle
    sequence is periodic. *)
Theorem idle_pattern_cycle
    (joinpath : string -> string -> string) (dir : string) (c : Video.config)
    (patterns : list (gmap string pyval)) (plan : list (string * Z)) :
  Video.idle_pattern c = Some patterns ->
  mapM (Plan.step_plan c) patterns = Some plan ->
  Video.idle_calls joinpath (sum_list (Plan.plays <$> plan.*2))
    (Video.Mk dir c 0 0)
  = (concat (Plan.step_results joinpath dir <$> plan), Video.Mk dir c 0 0).
Proof.
  intros Hp Hplan. apply mapM_Some in Hplan.
  destruct patterns as [|st rest].
  - apply Forall2_nil_inv_l in Hplan. by subst plan.
  - by apply (idle_calls_walk joinpath dir c (st :: rest) Hp (st :: rest) plan []).
Qed.

Lemma idle_pattern_cycle_witness :
  Video.idle_calls Sample.joinpath 3 (Video.Mk "videos" Sample.catalog 0 0)
  = ([Ok ("videos/idle0.mp4", false); Ok ("videos/idle0.mp4", true);
      Ok ("videos/idle1.mp4", true)],
     Video.Mk "videos" Sample.catalog 0 0).
Proof.
  exact (idle_pattern_cycle Sample.joinpath "videos" Sample.catalog
           [Sample.step "00" 2; Sample.step "01" 1]
           [("idle0.mp4", 2); ("idle1.mp4", 1)] eq_refl eq_refl).
Defined.

(** X10: a step on which [get_next_idle_video] fails is never skipped: the
    cursor does not move, so every later call fails in the same way and
    returns what the handler returns, the default asset with the pattern-end
    flag, or the handler's own exception. *)
Theorem broken_step_is_never_skipped
    (joinpath : string -> string -> string) (self : Video.VideoManager)
    (e : exn) (n : nat) :
  Video.next_idle_try joinpath self = Raise e ->
  Video.idle_calls joinpath n self
  = (replicate n (Video.idle_fallback joinpath self), self).
Proof.
  intros He. induction n as [|n IH]; simpl; [done|].
  unfold Video.get_next_idle_video. rewrite He. by rewrite IH.
Qed.

Lemma broken_step_is_never_skipped_witness :
  Video.idle_calls Sample.joinpath 3 (scheduler Sample.catalog 7 0)
  = (replicate 3 (Video.idle_fallback Sample.joinpath
                    (scheduler Sample.catalog 7 0)),
     scheduler Sample.catalog 7 0).
Proof.
  apply (broken_step_is_never_skipped Sample.joinpath
           (scheduler Sample.catalog 7 0) IndexError 3).
  reflexivity.
Defined.

(** ** Synchronizer: stopping, superseding and the life of a session *)

Section SyncMore.
Import Sync Slot.

Lemma run_app (evs1 evs2 : list event) (w : world) :
  run (evs1 ++ evs2) w = run evs2 (run evs1 w).
Proof. unfold run. apply foldl_app. Qed.

Lemma stop_rest_fields (w : world) :
  is_playing (self (stop_rest w)) = false
  ∧ video_queue (self (stop_rest w)) = []
  ∧ audio_queue (self (stop_rest w)) = []
  ∧ caller (stop_rest w) = Free
  ∧ tasks (stop_rest w) = tasks w
  ∧ current_task (self (stop_rest w)) = current_task (self w)
  ∧ now (stop_rest w) = now w.
Proof. by destruct w as [[] ? ? ? ?]. Qed.

Lemma stop_rest_twice (w : world) : stop_rest (stop_rest w) = stop_rest w.
Proof. by destruct w as [[] ? ? ? ?]. Qed.

Lemma run_task_done (w : world) (t : nat) :
  done w t = true -> run_task t w = w.
Proof.
  unfold done, run_task. destruct (tasks w !! t) as [[s mc]|]; [|done].
  by destruct s.
Qed.

(** The turn of a task with a pending cancellation ends it. *)
Lemma run_task_cancelled (w : world) (t : nat) (pc : caller_pc) :
  done w t = false ->
  let w' := run_task t (with_caller (cancel t w) pc) in
  done w' t = true ∧ caller w' = pc ∧ now w' = now w
  ∧ current_task (self w') = current_task (self w)
  ∧ returned w' = returned w
  ∧ length (tasks w') = length (tasks w).
Proof.
  intros Hlive. apply not_done_lookup in Hlive as ([s mc] & Ht & Hs).
  destruct w as [m ts pc0 nw ret]. simpl in *.
  assert (Hlt : (t < length ts)%nat) by (by eapply lookup_lt_Some).
  unfold cancel, run_task. simpl. rewrite Ht. simpl.
  rewrite list_lookup_insert_eq by done. simpl.
  destruct s; try done; unfold done, on_cancelled, set_state; simpl;
    rewrite list_lookup_insert_eq by (by rewrite length_insert);
    rewrite !length_insert; done.
Qed.

Lemma run_task_all_done (w : world) (t : nat) :
  single_session w -> current_state w = Done -> run_task t w = w.
Proof.
  intros (Ho & _) Hd. apply run_task_done. unfold done.
  destruct (tasks w !! t) as [tk|] eqn:Ht; [|done].
  pose proof (all_done w Ho Hd t tk Ht) as Hs. destruct tk as [s mc].
  simpl in Hs. by subst s.
Qed.

Lemma current_state_done_iff (w : world) :
  current_state w = Done ->
  match current_task (self w) with Some t => done w t = true | None => True end.
Proof.
  unfold current_state, done. destruct (current_task (self w)) as [t|]; [|done].
  destruct (tasks w !! t) as [[s mc]|]; [|done]. simpl. by intros ->.
Qed.

Lemma single_session_stop_rest_idle (w : world) :
  single_session w -> current_state w = Done ->
  single_session (stop_rest w) ∧ current_state (stop_rest w) = Done.
Proof.
  intros Hinv Hd. split.
  - apply single_session_stop_rest; [apply Hinv|done|].
    by apply single_session_idle_when_done.
  - unfold current_state in *. by destruct w as [[] ? ? ? ?].
Qed.

(** What [stop] comes to once the cancelled task has had its turn. *)
Lemma stop_and_wait_idle (w : world) :
  single_session w -> caller w = Free -> current_state w = Done ->
  stop_and_wait w = stop_rest w.
Proof.
  intros Hinv Hfree Hd. unfold stop_and_wait.
  change (run [CallStop; RunTask ?t; ResumeCaller] w)
    with (step ResumeCaller (step (RunTask t) (step CallStop w))).
  assert (Hstop : step CallStop w = stop_rest w).
  { cbn [step]. rewrite Hfree. unfold stop, stop_current_playback.
    pose proof (current_state_done_iff w Hd) as Hdone.
    destruct (current_task (self w)); [by rewrite Hdone|done]. }
  rewrite Hstop. destruct (single_session_stop_rest_idle w Hinv Hd) as [Hinv' Hd'].
  cbn [step]. rewrite (run_task_all_done _ _ Hinv' Hd').
  by destruct (stop_rest_fields w) as (_ & _ & _ & -> & _).
Qed.

Lemma stop_and_wait_live (w : world) (t : nat) :
  caller w = Free -> current_task (self w) = Some t -> done w t = false ->
  stop_and_wait w
  = stop_rest (run_task t (with_caller (cancel t w) (AwaitStop t))).
Proof.
  intros Hfree Hc Hlive. unfold stop_and_wait, held_task. rewrite Hc. simpl.
  rewrite Hfree. unfold stop, stop_current_playback. rewrite Hc, Hlive.
  destruct (run_task_cancelled w t (AwaitStop t) Hlive) as (Hdone & Hpc & _).
  by rewrite Hpc, Hdone.
Qed.

Lemma done_or_not (w : world) :
  current_state w = Done
  ∨ ∃ t, current_task (self w) = Some t ∧ done w t = false.
Proof.
  unfold current_state, done.
  destruct (current_task (self w)) as [t|]; [|by left].
  destruct (tasks w !! t) as [[s mc]|] eqn:Ht; [|by left].
  destruct s; simpl; first [by left | right; exists t; by rewrite Ht].
Qed.

(** X11: from every state the synchronizer can reach with its caller outside
    any call, [stop] (the call, the cancelled session's turn and the caller's
    resumption) leaves nothing behind: [is_playing] is false, video, audio and
    start time are idle, both queues are empty, every task is done and no time
    has passed; a second [stop] changes nothing. *)
Theorem stop_resets_the_synchronizer (t0 : Z) (evs : list event) :
  let w := run evs (init t0) in
  caller w = Free ->
  let stopped := stop_and_wait w in
  is_playing (self stopped) = false
  ∧ session_idle (self stopped)
  ∧ video_queue (self stopped) = [] ∧ audio_queue (self stopped) = []
  ∧ caller stopped = Free
  ∧ (∀ i tk, tasks stopped !! i = Some tk -> state tk = Done)
  ∧ now stopped = now w
  ∧ stop_and_wait stopped = stopped.
Proof.
  intros w Hfree stopped.
  assert (Hinv : single_session w)
    by apply run_single_session, init_single_session.
  assert (Hinv' : single_session stopped).
  { subst stopped. unfold stop_and_wait. by apply run_single_session. }
  assert (Hshape : ∃ w1, stopped = stop_rest w1 ∧ current_state w1 = Done
                         ∧ now w1 = now w).
  { destruct (done_or_not w) as [Hd|(t & Hc & Hlive)].
    - exists w. subst stopped. by rewrite stop_and_wait_idle.
    - subst stopped. rewrite (stop_and_wait_live w t) by done.
      destruct (run_task_cancelled w t (AwaitStop t) Hlive)
        as (Hdone & _ & Hnow & Hcur & _).
      eexists. split; [done|]. split; [|done].
      apply done_current_state with t; [by rewrite Hcur|done]. }
  destruct Hshape as (w1 & Heq & Hd1 & Hnow).
  assert (Hd : current_state stopped = Done).
  { rewrite Heq. unfold current_state in *. by destruct w1 as [[] ? ? ? ?]. }
  destruct (stop_rest_fields w1) as (Hp & Hvq & Haq & Hpc & _ & _ & Hn).
  rewrite <- Heq in *. split_and!; try done.
  - by apply single_session_idle_when_done.
  - apply all_done; [apply Hinv'|done].
  - congruence.
  - rewrite stop_and_wait_idle by done. rewrite Heq. apply stop_rest_twice.
Qed.

Lemma stop_resets_the_synchronizer_witness :
  let w := run [CallSyncMedia Sample.talk Sample.voice; RunTask 0; Elapse 2]
             (init 100) in
  let stopped := stop_and_wait w in
  is_playing (self w) = true
  ∧ is_playing (self stopped) = false
  ∧ session_idle (self stopped)
  ∧ stop_and_wait stopped = stopped.
Proof.
  destruct (stop_resets_the_synchronizer 100
              [CallSyncMedia Sample.talk Sample.voice; RunTask 0; Elapse 2]
              eq_refl)
    as (Hp & Hidle & _ & _ & _ & _ & _ & Hagain).
  exact (conj eq_refl (conj Hp (conj Hidle Hagain))).
Defined.

(** The first turn of the task that [sync_media] creates. *)
Lemma session_start (w : world) (v : video_data) (a : audio_data) :
  let t := length (tasks w) in
  let created := sync_media_rest v a w in
  let installed :=
    with_self created
      (set_session (v !! "path") (Some a) (now w)
         (set_queues [] [] (self created))) in
  step (RunTask t) created
  = match duration_of v with
    | Some d => set_state t (Sleeping (now w + Z.max 0 d) v a) installed
    | None => on_error t installed
    end.
Proof.
  destruct w as [m ts pc nw ret]. simpl.
  unfold run_task. simpl. rewrite list_lookup_middle by done. simpl.
  unfold play_synced. simpl. unfold play_from_audio. simpl.
  unfold install_and_sleep, duration_of. simpl.
  by destruct (default (PInt 0) (v !! "duration")).
Qed.

Lemma lookup_new_task (ts : list task) (x y : task) :
  <[length ts := x]> (ts ++ [y]) !! length ts = Some x.
Proof. apply list_lookup_insert_eq. rewrite length_app. simpl. lia. Qed.

Lemma lookup_old_task (ts : list task) (x y tk : task) (t : nat) :
  ts !! t = Some tk -> <[length ts := x]> (ts ++ [y]) !! t = Some tk.
Proof.
  intros Ht. apply lookup_lt_Some in Ht as Hlt.
  rewrite list_lookup_insert_ne by lia. by rewrite lookup_app_l.
Qed.

(** X12: a session whose metadata carries the number [d] as duration keeps
    [is_playing], its video and its audio through every turn it gets before
    [d] units of time have passed, with the elapsed time counted from its
    start, and ends on the first turn it gets from then on: [is_playing] is
    false and video, audio and start time are idle. *)
Theorem session_lasts_its_duration (w : world) (v : video_data)
    (a : audio_data) (d : Z) (n : nat) :
  duration_of v = Some d ->
  let t := length (tasks w) in
  let started := step (RunTask t) (sync_media_rest v a w) in
  let later := step (RunTask t) (step (Elapse n) started) in
  (Z.of_nat n < d ->
     later = step (Elapse n) started
     ∧ get_playback_status later
       = {| st_is_playing := true; st_current_video := v !! "path";
            st_has_audio := true;
            st_elapsed_time := if now w >? 0 then Z.of_nat n else 0 |})
  ∧ (d <= Z.of_nat n ->
     current_state later = Done
     ∧ get_playback_status later
       = {| st_is_playing := false; st_current_video := None;
            st_has_audio := false; st_elapsed_time := 0 |}).
Proof.
  intros Hd t started later. subst later started t.
  rewrite session_start, Hd.
  destruct w as [m ts pc nw ret]. simpl.
  unfold run_task, set_state. simpl. rewrite lookup_new_task. simpl. split.
  - intros Hn.
    replace (nw + Z.max 0 d <=? nw + Z.of_nat n) with false
      by (symmetry; apply Z.leb_gt; lia).
    split; [done|]. unfold get_playback_status. simpl.
    f_equal. destruct (nw >? 0); [lia|done].
  - intros Hn.
    replace (nw + Z.max 0 d <=? nw + Z.of_nat n) with true
      by (symmetry; apply Z.leb_le; lia).
    unfold on_complete, set_state, current_state. simpl.
    rewrite list_lookup_insert_eq
      by (rewrite length_insert, length_app; simpl; lia).
    done.
Qed.

Lemma session_lasts_its_duration_witness :
  let started := step (RunTask 0) (sync_media_rest Sample.talk Sample.voice (init 100)) in
  let later := step (RunTask 0) (step (Elapse 3) started) in
  later = step (Elapse 3) started
  ∧ get_playback_status later
    = {| st_is_playing := true; st_current_video := Sample.talk !! "path";
         st_has_audio := true; st_elapsed_time := 3 |}.
Proof.
  apply (proj1 (session_lasts_its_duration (init 100) Sample.talk Sample.voice
                  5 3 eq_refl)).
  reflexivity.
Defined.

(** X13: a session whose metadata carries a duration that is not a number
    ends in its first turn, through the handler for exceptions: the task is
    done, [is_playing] is false and video, audio and start time are idle. *)
Theorem session_with_bad_duration_ends_at_once (w : world) (v : video_data)
    (a : audio_data) :
  duration_of v = None ->
  let started := step (RunTask (length (tasks w))) (sync_media_rest v a w) in
  current_state started = Done
  ∧ is_playing (self started) = false
  ∧ session_idle (self started)
  ∧ video_queue (self started) = [] ∧ audio_queue (self started) = [].
Proof.
  intros Hd started. subst started. rewrite session_start, Hd.
  destruct w as [m ts pc nw ret]. simpl.
  unfold on_error, set_state, current_state. simpl.
  rewrite lookup_new_task. done.
Qed.

Lemma session_with_bad_duration_ends_at_once_witness :
  let v : video_data := {[ "path" := PStr "videos/a.mp4";
                           "duration" := PStr "long" ]} in
  let started := step (RunTask 0) (sync_media_rest v Sample.voice (init 100)) in
  current_state started = Done ∧ is_playing (self started) = false.
Proof.
  intros v.
  destruct (session_with_bad_duration_ends_at_once (init 100) v Sample.voice)
    as (H1 & H2 & _); [by vm_compute|].
  exact (conj H1 H2).
Defined.

(** X14: a [sync_media] call made while a session is in flight cancels that
    session and waits for it; once the caller has resumed and the new task has
    had its first turn, the old task is done and the manager holds the new
    session with the video and audio of this call, started at the current
    time. *)
Theorem second_sync_media_supersedes (w : world) (t : nat) (v : video_data)
    (a : audio_data) (d : Z) :
  caller w = Free ->
  current_task (self w) = Some t ->
  done w t = false ->
  duration_of v = Some d ->
  let w' := step (RunTask (length (tasks w))) (sync_media_and_wait v a w) in
  done w' t = true
  ∧ current_task (self w') = Some (length (tasks w))
  ∧ current_state w' = Sleeping (now w + Z.max 0 d) v a
  ∧ session_of (self w') v a
  ∧ start_time (self w') = now w
  ∧ caller w' = Free
  ∧ returned w' = true :: returned w.
Proof.
  intros Hfree Hc Hlive Hd w'.
  destruct (run_task_cancelled w t (AwaitSync t v a) Hlive)
    as (Hdone & Hpc & Hnow & Hcur & Hret & Hlen).
  set (w2 := run_task t (with_caller (cancel t w) (AwaitSync t v a))) in *.
  assert (Hwait : sync_media_and_wait v a w = sync_media_rest v a w2).
  { unfold sync_media_and_wait, held_task. rewrite Hc. simpl.
    rewrite Hfree. unfold sync_media, stop_current_playback.
    rewrite Hc, Hlive. fold w2. by rewrite Hpc, Hdone. }
  subst w'. rewrite Hwait, <- Hlen, session_start, Hd.
  rewrite Hnow. clearbody w2.
  destruct w2 as [m2 ts2 pc2 nw2 ret2]. simpl in *.
  unfold done, current_state, set_state in *. simpl.
  rewrite lookup_new_task. simpl.
  destruct (ts2 !! t) as [[s mc]|] eqn:Ht.
  - rewrite (lookup_old_task ts2 _ _ _ t Ht). subst ret2.
    simpl in Hdone. rewrite Ht in Hdone. split_and!; try done.
  - apply lookup_ge_None in Ht.
    destruct (decide (t = length ts2)) as [->|Hne].
    + exfalso. apply not_done_lookup in Hlive as (tk & Hsome & _).
      apply lookup_lt_Some in Hsome. lia.
    + rewrite list_lookup_insert_ne by done.
      rewrite lookup_ge_None_2 by (rewrite length_app; simpl; lia).
      subst ret2. split_and!; try done.
Qed.

Lemma second_sync_media_supersedes_witness :
  let w := run [CallSyncMedia Sample.talk Sample.voice; RunTask 0; Elapse 2]
             (init 100) in
  let w' := step (RunTask 1) (sync_media_and_wait Sample.still Sample.voice w) in
  done w' 0 = true
  ∧ current_task (self w') = Some 1%nat
  ∧ current_state w' = Sleeping (102 + Z.max 0 0) Sample.still Sample.voice
  ∧ session_of (self w') Sample.still Sample.voice
  ∧ start_time (self w') = 102
  ∧ caller w' = Free
  ∧ returned w' = [true; true].
Proof.
  exact (second_sync_media_supersedes
           (run [CallSyncMedia Sample.talk Sample.voice; RunTask 0; Elapse 2]
              (init 100))
           0 Sample.still Sample.voice 0 eq_refl eq_refl eq_refl eq_refl).
Defined.

Lemma queues_fit_sync_media_rest (v : video_data) (a : audio_data) (w : world) :
  queues_fit (sync_media_rest v a w).
Proof.
  destruct w as [m ts pc nw ret]. unfold queues_fit, current_state. simpl.
  rewrite list_lookup_middle by done. simpl. split_and!; [done|lia|done].
Qed.

Lemma queues_fit_stop_rest (w : world) :
  current_state w = Done -> queues_fit (stop_rest w).
Proof.
  intros Hd. destruct w as [m ts pc nw ret].
  unfold queues_fit, current_state in *. simpl in *. rewrite Hd.
  split_and!; [done|lia|done].
Qed.

Lemma current_state_cancel (w : world) (t : nat) (pc : caller_pc) :
  current_state (with_caller (cancel t w) pc) = current_state w.
Proof.
  destruct w as [m ts pc0 nw ret]. unfold cancel, current_state. simpl.
  destruct (ts !! t) as [tk|] eqn:Ht; simpl; [|done].
  destruct (current_task m) as [t'|]; [|done].
  destruct (decide (t = t')) as [<-|Hne].
  - rewrite list_lookup_insert_eq by (by eapply lookup_lt_Some).
    by rewrite Ht.
  - by rewrite list_lookup_insert_ne.
Qed.

Lemma queues_fit_cancel (w : world) (t : nat) (pc : caller_pc) :
  queues_fit w -> queues_fit (with_caller (cancel t w) pc).
Proof.
  unfold queues_fit. rewrite current_state_cancel.
  destruct w as [m ts pc0 nw ret]. unfold cancel. simpl.
  by destruct (ts !! t).
Qed.

Lemma queues_fit_stop_current_playback pc' k (w : world) :
  queues_fit w -> (current_state w = Done -> queues_fit (k w)) ->
  queues_fit (stop_current_playback pc' k w).
Proof.
  intros Hq Hk. unfold stop_current_playback.
  destruct (current_task (self w)) as [t|] eqn:Hc.
  - destruct (done w t) eqn:Hd.
    + apply Hk. by apply done_current_state with t.
    + by apply queues_fit_cancel.
  - apply Hk. unfold current_state. by rewrite Hc.
Qed.

Lemma queues_fit_run_task (w : world) (t : nat) :
  single_session w -> queues_fit w -> queues_fit (run_task t w).
Proof.
  intros (Ho & _) Hq. destruct w as [m ts pc nw ret].
  pose proof Hq as (Hlen & Hone & Hcur). simpl in *.
  unfold run_task. simpl.
  destruct (ts !! t) as [[s mc]|] eqn:Ht; [|done]. simpl.
  destruct s as [| |v|wake v a|]; [..|done].
  all: assert (Hc : current_task m = Some t) by (by apply (Ho t _ Ht)).
  all: unfold current_state in Hcur; simpl in Hcur; rewrite Hc, Ht in Hcur;
    simpl in Hcur; try done.
  all: assert (Hlt : (t < length ts)%nat) by (by eapply lookup_lt_Some).
  - destruct (video_queue m) as [|v [|? ?]] eqn:Hvq; [done| |simpl in Hone; lia].
    destruct (audio_queue m) as [|a [|? ?]] eqn:Haq; try done.
    destruct mc.
    + unfold queues_fit, set_state, current_state. simpl.
      rewrite Hc, list_lookup_insert_eq by done. simpl. rewrite Hvq, Haq.
      split_and!; first [done|lia].
    + unfold play_synced. simpl. rewrite Hvq. simpl.
      unfold play_from_audio. simpl. rewrite Haq. simpl.
      unfold install_and_sleep. simpl.
      destruct (default (PInt 0) (v !! "duration"));
        unfold queues_fit, on_error, set_state, current_state; simpl;
        rewrite Hc, list_lookup_insert_eq by done; simpl; split_and!; first [done|lia].
  - destruct mc; [|destruct (wake <=? nw)]; try done;
      unfold queues_fit, on_cancelled, on_complete, set_state, current_state;
      simpl; rewrite Hc, list_lookup_insert_eq by done; simpl; split_and!; first [done|lia].
Qed.

Lemma step_queues_fit (e : event) (w : world) :
  single_session w -> queues_fit w -> queues_fit (step e w).
Proof.
  intros Hinv Hq. destruct e as [v a| |t| |d]; simpl.
  - destruct (caller w); [|done..]. unfold sync_media.
    apply queues_fit_stop_current_playback; [done|].
    intros _. apply queues_fit_sync_media_rest.
  - destruct (caller w); [|done..]. unfold stop.
    apply queues_fit_stop_current_playback; [done|].
    apply queues_fit_stop_rest.
  - by apply queues_fit_run_task.
  - destruct (caller w) as [|t v a|t] eqn:Hpc; [done| |].
    + destruct (done w t); [|done]. apply queues_fit_sync_media_rest.
    + destruct (done w t) eqn:Hd; [|done]. apply queues_fit_stop_rest.
      apply done_current_state with t; [|done].
      destruct Hinv as (_ & _ & _ & H). by rewrite Hpc in H.
  - by destruct w.
Qed.

Lemma run_queues_fit (evs : list event) (w : world) :
  single_session w -> queues_fit w ->
  single_session (run evs w) ∧ queues_fit (run evs w).
Proof.
  revert w. induction evs as [|e evs IH]; intros w Hinv Hq; simpl; [done|].
  apply IH; [by apply step_single_session|by apply step_queues_fit].
Qed.

(** X15: at every instant of every run of the synchronizer, each queue holds
    at most one item and both hold the same number, and no playback task is
    waiting on a queue: a task is not started, asleep in its playback, or
    done. *)
Theorem single_slot_handover (t0 : Z) (evs : list event) :
  let w := run evs (init t0) in
  length (video_queue (self w)) = length (audio_queue (self w))
  ∧ (length (video_queue (self w)) <= 1)%nat
  ∧ (∀ i tk, tasks w !! i = Some tk ->
       state tk = Created ∨ state tk = Done
       ∨ ∃ wake v a, state tk = Sleeping wake v a).
Proof.
  intros w.
  assert (Hinit : queues_fit (init t0)).
  { unfold queues_fit, current_state. simpl. split_and!; [done|lia|done]. }
  destruct (run_queues_fit evs (init t0) (init_single_session t0) Hinit)
    as [(Ho & _) (Hlen & Hone & Hcur)]. fold w in Ho, Hlen, Hone, Hcur.
  split_and!; [done..|].
  intros i [s mc] Hi. simpl.
  destruct s as [| |v|wake v a|]; eauto.
  - exfalso. specialize (Ho i _ Hi ltac:(done)).
    unfold current_state in Hcur. by rewrite Ho, Hi in Hcur.
  - exfalso. specialize (Ho i _ Hi ltac:(done)).
    unfold current_state in Hcur. by rewrite Ho, Hi in Hcur.
  - right. right. eauto.
Qed.

End SyncMore.

(** ** Request spacing *)

(** X16: [_rate_limit] does not sleep when at least [min_request_interval]
    has passed since the last request and otherwise sleeps for what is
    missing; either way the time it stamps on the request lies at least
    [min_request_interval] after the previous stamp, so the stamps of any
    series of requests are that far apart. *)
Theorem rate_limit_spaces_requests (entries : list (Z * nat))
    (self : YouTube.YouTubeService) :
  let stamps := YouTube.request_times entries self in
  (∀ lag now,
     YouTube.min_request_interval self <= now - YouTube.last_request_time self ->
     (YouTube.rate_limit lag now self).1 = now + Z.of_nat lag)
  ∧ (∀ lag now,
       now - YouTube.last_request_time self < YouTube.min_request_interval self ->
       (YouTube.rate_limit lag now self).1
       = YouTube.last_request_time self + YouTube.min_request_interval self
         + Z.of_nat lag)
  ∧ length stamps = length entries
  ∧ (∀ i earlier later,
       (YouTube.last_request_time self :: stamps) !! i = Some earlier ->
       stamps !! i = Some later ->
       YouTube.min_request_interval self <= later - earlier).
Proof.
  intros stamps. split_and!.
  - intros lag now Hfar. unfold YouTube.rate_limit. simpl.
    replace (now - YouTube.last_request_time self
             <? YouTube.min_request_interval self) with false
      by (symmetry; apply Z.ltb_ge; lia).
    lia.
  - intros lag now Hnear. unfold YouTube.rate_limit. simpl.
    replace (now - YouTube.last_request_time self
             <? YouTube.min_request_interval self) with true
      by (symmetry; apply Z.ltb_lt; lia).
    lia.
  - subst stamps. revert self.
    induction entries as [|[now lag] entries IH]; intros self; simpl; [done|].
    by rewrite IH.
  - subst stamps. revert self.
    induction entries as [|[now lag] entries IH]; intros self i earlier later;
      simpl; [done|].
    set (t := now
              + (if now - YouTube.last_request_time self
                    <? YouTube.min_request_interval self
                 then YouTube.min_request_interval self
                      - (now - YouTube.last_request_time self)
                 else 0)
              + Z.of_nat lag).
    destruct i as [|i]; simpl.
    + intros [= <-] [= <-]. subst t.
      destruct (Z.ltb_spec (now - YouTube.last_request_time self)
                  (YouTube.min_request_interval self)); lia.
    + intros He Hl.
      apply (IH {| YouTube.last_request_time := t;
                   YouTube.min_request_interval :=
                     YouTube.min_request_interval self |} i earlier later);
        done.
Qed.

(** ** Asset metadata *)

Section AssetFacts.

Variable joinpath : string -> string -> string.
Variable path_exists : string -> bool.
Variable get_video_info : string -> option (gmap string pyval).

Abbreviation resolved :=
  (Assets.resolved joinpath path_exists get_video_info).

Lemma preload_one_lookup video_dir (cache : gmap string (gmap string pyval))
    (filename k : string) :
  Assets.preload_one joinpath path_exists get_video_info video_dir cache filename
    !! k
  = match (if decide (k = filename) then resolved video_dir k else None) with
    | Some info => Some info
    | None => cache !! k
    end.
Proof.
  unfold Assets.preload_one, Assets.resolved.
  destruct (decide (k = filename)) as [->|Hne].
  - destruct (path_exists (joinpath video_dir filename)); [|done].
    destruct (Assets.truthy_info _); [|done]. by rewrite lookup_insert_eq.
  - destruct (path_exists (joinpath video_dir filename)); [|done].
    destruct (Assets.truthy_info _); [|done]. by rewrite lookup_insert_ne.
Qed.

Lemma preload_names_lookup video_dir (names : list string)
    (cache : gmap string (gmap string pyval)) (k : string) :
  Assets.preload_names joinpath path_exists get_video_info video_dir names cache
    !! k
  = match (if decide (k ∈ names) then resolved video_dir k else None) with
    | Some info => Some info
    | None => cache !! k
    end.
Proof.
  unfold Assets.preload_names. revert cache.
  induction names as [|n names IH]; intros cache; cbn [foldl].
  - by rewrite decide_False by apply not_elem_of_nil.
  - rewrite IH, preload_one_lookup.
    destruct (decide (k ∈ n :: names)) as [H1|H1],
      (decide (k ∈ names)) as [H2|H2], (decide (k = n)) as [H3|H3];
      try (by destruct (resolved video_dir k)); exfalso;
      rewrite elem_of_cons in H1; tauto.
Qed.

End AssetFacts.

(** X17: after [preload_videos] on an empty cache, the cache holds under a
    file name exactly what [get_video_info] returned for it, for the names of
    the idle catalog and of the talking clips whose file exists and whose
    metadata could be read; every other name is absent. *)
Theorem preload_videos_caches_resolved_names
    (joinpath : string -> string -> string) (path_exists : string -> bool)
    (get_video_info : string -> option (gmap string pyval))
    (video_dir : string) (c : Video.config) (k : string)
    (info : gmap string pyval) :
  Assets.preload_videos joinpath path_exists get_video_info video_dir c ∅ !! k
    = Some info
  ↔ (k ∈ Video.talking c ∨ ∃ key, Video.idle c !! key = Some k)
    ∧ path_exists (joinpath video_dir k) = true
    ∧ get_video_info (joinpath video_dir k) = Some info
    ∧ info ≠ ∅.
Proof.
  unfold Assets.preload_videos. rewrite preload_names_lookup.
  assert (Hnames : k ∈ Assets.configured_names c
                   ↔ k ∈ Video.talking c ∨ ∃ key, Video.idle c !! key = Some k).
  { unfold Assets.configured_names. rewrite elem_of_app, list_elem_of_fmap.
    split.
    - intros [([key name] & -> & Hin)|?]; [|by left].
      right. exists key. by apply elem_of_map_to_list in Hin.
    - intros [?|[key Hkey]]; [by right|]. left. exists (key, k).
      split; [done|]. by apply elem_of_map_to_list. }
  unfold Assets.resolved, Assets.truthy_info.
  destruct (decide (k ∈ Assets.configured_names c)) as [Hin|Hnin].
  - destruct (path_exists (joinpath video_dir k)).
    + destruct (get_video_info (joinpath video_dir k)) as [info'|].
      * destruct (decide (info' = ∅)) as [->|Hne].
        -- rewrite lookup_empty. split; [done|]. intros (_ & _ & [= <-] & ?). done.
        -- split.
           ++ intros [= <-]. split_and!; try done. by apply Hnames.
           ++ by intros (_ & _ & [= <-] & _).
      * rewrite lookup_empty. split; [done|]. by intros (_ & _ & ? & _).
    + rewrite lookup_empty. split; [done|]. by intros (_ & ? & _).
  - rewrite lookup_empty. split; [done|]. intros (Hc & _). by apply Hnames in Hc.
Qed.

Lemma prepare_video_again
    (path_name : string -> string) (path_exists : string -> bool)
    (get_video_info later_info : string -> option (gmap string pyval))
    (video_path : string) (cache : gmap string (gmap string pyval))
    (info : gmap string pyval) :
  let first := Assets.prepare_video path_name path_exists get_video_info
                 video_path cache in
  first.1 = Some info ->
  Assets.prepare_video path_name path_exists later_info video_path first.2
  = (Some info, first.2)
  ∧ info !! "path" = Some (PStr video_path)
  ∧ path_exists video_path = true.
Proof.
  intros first. subst first. unfold Assets.prepare_video.
  destruct (path_exists video_path) eqn:Hex; simpl; [|done].
  destruct (cache !! path_name video_path) as [cached|] eqn:Hc; simpl.
  - intros [= <-]. rewrite Hc. by rewrite lookup_insert_eq.
  - destruct (Assets.truthy_info (get_video_info video_path)) as [info0|];
      simpl; [|done].
    intros [= <-]. rewrite !lookup_insert_eq. by rewrite insert_insert_eq.
Qed.

(** X18: [prepare_video] memoizes by file name. Once it has returned the
    metadata of a path, every later call for that path returns the same
    metadata and leaves the cache as it is for as long as the file exists,
    whatever [get_video_info] would say by then; a call only ever adds the
    entry of its own file name, and a call that returns nothing adds none. *)
Theorem prepare_video_memoizes
    (path_name : string -> string) (path_exists : string -> bool)
    (get_video_info later_info : string -> option (gmap string pyval))
    (video_path : string) (cache : gmap string (gmap string pyval)) :
  let first := Assets.prepare_video path_name path_exists get_video_info
                 video_path cache in
  (∀ info, first.1 = Some info ->
     Assets.prepare_video path_name path_exists later_info video_path first.2
     = (Some info, first.2)
     ∧ info !! "path" = Some (PStr video_path))
  ∧ (first.1 = None -> first.2 = cache)
  ∧ (∀ k, k ≠ path_name video_path -> first.2 !! k = cache !! k).
Proof.
  intros first. split_and!.
  - intros info Hinfo.
    destruct (prepare_video_again path_name path_exists get_video_info
                later_info video_path cache info Hinfo) as (? & ? & _).
    done.
  - subst first. unfold Assets.prepare_video.
    destruct (path_exists video_path); [|done].
    destruct (cache !! path_name video_path); [done|].
    by destruct (Assets.truthy_info (get_video_info video_path)).
  - intros k Hk. subst first. unfold Assets.prepare_video.
    destruct (path_exists video_path); [|done].
    destruct (cache !! path_name video_path); [done|].
    destruct (Assets.truthy_info (get_video_info video_path)); [|done].
    simpl. by rewrite lookup_insert_ne.
Qed.

(** X19: a file name that [preload_videos] resolved is served from the cache:
    when the last component of [video_dir / name] is [name],
    [prepare_video] of that path returns the preloaded metadata with the path
    added and does not touch the cache, whatever [get_video_info] would say by
    then. *)
Theorem preloaded_asset_is_served_from_cache
    (joinpath : string -> string -> string)
    (path_name : string -> string) (path_exists : string -> bool)
    (get_video_info later_info : string -> option (gmap string pyval))
    (video_dir : string) (c : Video.config) (name : string)
    (info : gmap string pyval) :
  let cache := Assets.preload_videos joinpath path_exists get_video_info
                 video_dir c ∅ in
  cache !! name = Some info ->
  path_name (joinpath video_dir name) = name ->
  Assets.prepare_video path_name path_exists later_info
    (joinpath video_dir name) cache
  = (Some (<["path" := PStr (joinpath video_dir name)]> info), cache).
Proof.
  intros cache Hin Hname.
  assert (Hex : path_exists (joinpath video_dir name) = true).
  { subst cache. unfold Assets.preload_videos in Hin.
    rewrite preload_names_lookup in Hin. unfold Assets.resolved in Hin.
    destruct (decide (name ∈ Assets.configured_names c));
      [|by rewrite lookup_empty in Hin].
    destruct (path_exists (joinpath video_dir name)); [done|].
    by rewrite lookup_empty in Hin. }
  unfold Assets.prepare_video. by rewrite Hex, Hname, Hin.
Qed.

(** X20: when [check_status] answers [True], every path that
    [get_talking_video] or [get_next_idle_video] returns, the fallbacks
    included, is the path of a file that exists. *)
Theorem check_status_covers_the_scheduler
    (joinpath : string -> string -> string) (path_exists : string -> bool)
    (self : Video.VideoManager) :
  Assets.check_status joinpath path_exists (Video.video_dir self)
    (Video.cfg self) = true ->
  (∀ n path, Video.get_talking_video joinpath n self = Ok path ->
             path_exists path = true)
  ∧ (∀ path flag,
       (Video.get_next_idle_video joinpath self).1 = Ok (path, flag) ->
       path_exists path = true).
Proof.
  intros Hcheck. unfold Assets.check_status in Hcheck.
  rewrite forallb_forall in Hcheck.
  assert (Hin : ∀ name, name ∈ Assets.configured_names (Video.cfg self) ->
                        path_exists (joinpath (Video.video_dir self) name) = true)
    by (intros name Hname; by apply Hcheck, list_elem_of_In).
  assert (Htalk : ∀ i name, py_index (Video.talking (Video.cfg self)) i = Ok name ->
                    path_exists (joinpath (Video.video_dir self) name) = true).
  { intros i name Hi. apply Hin. unfold Assets.configured_names.
    apply elem_of_app. right. unfold py_index in Hi.
    destruct ((0 <=? i) && _); [|destruct ((- _ <=? i) && _); [|done]].
    - destruct (Video.talking (Video.cfg self) !! Z.to_nat i) eqn:Hl; [|done].
      injection Hi as <-. by eapply list_elem_of_lookup_2.
    - destruct (Video.talking (Video.cfg self) !! Z.to_nat _) eqn:Hl; [|done].
      injection Hi as <-. by eapply list_elem_of_lookup_2. }
  assert (Hidle : ∀ key name, Video.idle (Video.cfg self) !! key = Some name ->
                    path_exists (joinpath (Video.video_dir self) name) = true).
  { intros key name Hk. apply Hin. unfold Assets.configured_names.
    apply elem_of_app. left. apply list_elem_of_fmap. exists (key, name).
    split; [done|]. by apply elem_of_map_to_list. }
  split.
  - intros n path. unfold Video.get_talking_video, Video.talking_try.
    set (pick := if n <? 50 then _ else _).
    destruct pick as [name|e] eqn:Hpick; simpl.
    + intros [= <-]. subst pick.
      destruct (n <? 50); [|destruct (n <? 100)]; by eapply Htalk.
    + destruct (py_index (Video.talking (Video.cfg self)) 0) as [name|] eqn:H0;
        simpl; [|done].
      intros [= <-]. by eapply Htalk.
  - intros path flag. unfold Video.get_next_idle_video.
    destruct (Video.next_idle_try joinpath self) as [[[p f] self1]|e] eqn:Htry;
      simpl.
    + intros [= <- <-]. unfold Video.next_idle_try in Htry.
      destruct (Video.idle_pattern (Video.cfg self)) as [patterns|];
        simpl in Htry; [|done].
      destruct (py_index patterns (Video.current_idle_index self)) as [st|];
        simpl in Htry; [|done].
      destruct (st !! "video") as [[|key]|]; simpl in Htry; try done.
      destruct (Video.idle (Video.cfg self) !! key) as [name|] eqn:Hk;
        simpl in Htry; [|done].
      destruct (st !! "repeat") as [r|]; simpl in Htry; [|done].
      destruct (Video.minus_one r) as [last|]; simpl in Htry; [|done].
      destruct (Video.current_repeat self >=? last); injection Htry as <- _ _;
        by eapply Hidle.
    + unfold Video.idle_fallback.
      destruct (Video.idle (Video.cfg self) !! "00") as [name|] eqn:H00;
        simpl; [|done].
      intros [= <- _]. by eapply Hidle.
Qed.

(** ** process_comment *)

Section MainFacts.

Context {V : Type}.

Lemma get_hit_entry (now : Z) (k : string) (s : Cache.CacheManager V)
    (e : Cache.entry V) :
  Cache.dict_get k (Cache.cache s) = Some e ->
  now - Cache.timestamp e < Cache.ttl s ->
  Cache.get now k s = (Some (Cache.value e), s).
Proof.
  intros He Hfresh. unfold Cache.get. rewrite He.
  by replace (now - Cache.timestamp e <? Cache.ttl s) with true
    by (symmetry; by apply Z.ltb_lt).
Qed.

Lemma get_hit_inv (now : Z) (k : string) (s : Cache.CacheManager V) (v : V) :
  (Cache.get now k s).1 = Some v ->
  (Cache.get now k s).2 = s
  ∧ ∃ e, Cache.dict_get k (Cache.cache s) = Some e ∧ Cache.value e = v.
Proof.
  unfold Cache.get. destruct (Cache.dict_get k (Cache.cache s)) as [e|]; [|done].
  destruct (now - Cache.timestamp e <? Cache.ttl s); [|done].
  simpl. intros [= <-]. eauto.
Qed.

Lemma set_ok_lookup json_dumps (now : Z) (f : Cache.faults) (k : string)
    (v : V) (s : Cache.CacheManager V) (d : Cache.disk) :
  is_ok (Cache.set json_dumps now f k v s d).1.1 = true ->
  Cache.dict_get k (Cache.cache (Cache.set json_dumps now f k v s d).1.2)
  = Some (Cache.Entry v now).
Proof.
  unfold Cache.set. destruct (Cache.evict_oldest s) as [s1|e] eqn:Hev; [|done].
  match goal with |- context [Cache.save_cache ?j ?f ?s ?d] =>
    pose proof (save_cache_memory j f s d) as Hmem;
    destruct (Cache.save_cache j f s d) as [[o s3] d'] end.
  simpl in Hmem. subst s3. destruct o; simpl; try done;
    intros _; apply dict_get_set_eq.
Qed.

End MainFacts.

Section ProcessComment.

Variable joinpath : string -> string -> string.
Variable path_name : string -> string.
Variable path_exists : string -> bool.
Variable dump_responses : Cache.dict string -> string.
Variable dump_audio : Cache.dict (list Byte.byte) -> string.

Abbreviation process_comment info :=
  (Main.process_comment joinpath path_name path_exists info dump_responses
     dump_audio).
Abbreviation voice_reply info :=
  (Main.voice_reply joinpath path_name path_exists info dump_audio).
Abbreviation play_reply info :=
  (Main.play_reply joinpath path_name path_exists info).

Lemma with_responses_same (sys : Main.system) :
  Main.with_responses sys (Main.response_cache sys) (Main.response_files sys)
  = sys.
Proof. by destruct sys. Qed.

Lemma with_audio_same (sys : Main.system) :
  Main.with_audio sys (Main.audio_cache sys) (Main.audio_files sys) = sys.
Proof. by destruct sys. Qed.

(** What a call that got as far as the video leaves, and what the same
    statements do when run again on what it left. *)
Lemma play_reply_spec info later_info resp audio sys now r :
  Main.returned (play_reply info resp audio sys now) = Some r ->
  let out := play_reply info resp audio sys now in
  (Main.response r = resp ∧ Main.has_audio r = true
   ∧ Main.synced out = Some (Main.video_info r, audio)
   ∧ Main.clock out = now
   ∧ Main.response_cache (Main.after out) = Main.response_cache sys
   ∧ Main.response_files (Main.after out) = Main.response_files sys
   ∧ Main.audio_cache (Main.after out) = Main.audio_cache sys
   ∧ Main.audio_files (Main.after out) = Main.audio_files sys
   ∧ ∃ path,
       Video.get_talking_video joinpath (Z.of_nat (py_len resp))
         (Main.video_manager sys) = Ok path
       ∧ path_exists path = true
       ∧ Main.video_info r !! "path" = Some (PStr path))
  ∧ ∀ later,
      play_reply later_info resp audio (Main.after out) later
      = {| Main.returned := Some r; Main.synced := Main.synced out;
           Main.after := Main.after out; Main.clock := later |}.
Proof.
  unfold Main.play_reply.
  destruct (Video.get_talking_video joinpath _ (Main.video_manager sys))
    as [path|e] eqn:Hpath; [|done].
  pose proof (prepare_video_again path_name path_exists info later_info path
                (Main.video_info_cache sys)) as Hmemo.
  destruct (Assets.prepare_video path_name path_exists info path
              (Main.video_info_cache sys)) as [[vi|] cache'] eqn:Hprep; [|done].
  simpl. intros [= <-]. simpl in Hmemo.
  destruct (Hmemo vi eq_refl) as (Hagain & Hvi & Hex). split.
  - split_and!; try done. by exists path.
  - intros later. simpl. rewrite Hpath, Hagain. done.
Qed.

Lemma voice_reply_spec info later_info sv later_sv resp sys now r :
  Main.returned (voice_reply info sv resp sys now) = Some r ->
  let out := voice_reply info sv resp sys now in
  let audio_key := "audio_" +:+ resp in
  Main.response r = resp ∧ Main.has_audio r = true
  ∧ Main.response_cache (Main.after out) = Main.response_cache sys
  ∧ Main.response_files (Main.after out) = Main.response_files sys
  ∧ (∃ path,
       Video.get_talking_video joinpath (Z.of_nat (py_len resp))
         (Main.video_manager sys) = Ok path
       ∧ path_exists path = true
       ∧ Main.video_info r !! "path" = Some (PStr path))
  ∧ ∃ e, Cache.dict_get audio_key
           (Cache.cache (Main.audio_cache (Main.after out))) = Some e
         ∧ Cache.value e ≠ []
         ∧ Main.synced out = Some (Main.video_info r, Cache.value e)
         ∧ ∀ later,
             later - Cache.timestamp e < Cache.ttl (Main.audio_cache (Main.after out)) ->
             voice_reply later_info later_sv resp (Main.after out) later
             = {| Main.returned := Some r; Main.synced := Main.synced out;
                  Main.after := Main.after out; Main.clock := later |}.
Proof.
  intros Hret out audio_key. subst out. revert Hret.
  unfold Main.voice_reply. fold audio_key.
  destruct (Cache.get now audio_key (Main.audio_cache sys)) as [cached ac]
    eqn:Hget.
  assert (Hrun : ∀ audio sys1 now1 e,
            audio ≠ [] ->
            Main.returned (play_reply info resp audio sys1 now1) = Some r ->
            Main.response_cache sys1 = Main.response_cache sys ->
            Main.response_files sys1 = Main.response_files sys ->
            Main.video_manager sys1 = Main.video_manager sys ->
            Cache.dict_get audio_key (Cache.cache (Main.audio_cache sys1)) = Some e ->
            Cache.value e = audio ->
            let out := play_reply info resp audio sys1 now1 in
            Main.response r = resp ∧ Main.has_audio r = true
            ∧ Main.response_cache (Main.after out) = Main.response_cache sys
            ∧ Main.response_files (Main.after out) = Main.response_files sys
            ∧ (∃ path,
                 Video.get_talking_video joinpath (Z.of_nat (py_len resp))
                   (Main.video_manager sys) = Ok path
                 ∧ path_exists path = true
                 ∧ Main.video_info r !! "path" = Some (PStr path))
            ∧ ∃ e, Cache.dict_get audio_key
                     (Cache.cache (Main.audio_cache (Main.after out))) = Some e
                   ∧ Cache.value e ≠ []
                   ∧ Main.synced out = Some (Main.video_info r, Cache.value e)
                   ∧ ∀ later,
                       later - Cache.timestamp e
                         < Cache.ttl (Main.audio_cache (Main.after out)) ->
                       voice_reply later_info later_sv resp (Main.after out) later
                       = {| Main.returned := Some r; Main.synced := Main.synced out;
                            Main.after := Main.after out; Main.clock := later |}).
  { intros audio sys1 now1 e Hne Hret Hrc Hrf Hvm He Hval out.
    destruct (play_reply_spec info later_info resp audio sys1 now1 r Hret)
      as ((Hr & Ha & Hs & _ & Hrc' & Hrf' & Hac' & Haf' & Hpath) & Hagain).
    fold out in Hr, Ha, Hs, Hrc', Hrf', Hac', Haf', Hagain.
    split_and!; try congruence.
    - by rewrite <- Hvm.
    - exists e. rewrite Hac'. split_and!; try done; try congruence.
      intros later Hfresh. unfold Main.voice_reply. fold audio_key.
      rewrite Hac', (get_hit_entry later audio_key _ e He Hfresh).
      rewrite <- Hac', with_audio_same, Hval.
      destruct audio; [done|]. apply Hagain. }
  destruct cached as [audio|].
  - pose proof (get_hit_inv now audio_key (Main.audio_cache sys) audio) as Hinv.
    rewrite Hget in Hinv. simpl in Hinv.
    destruct (Hinv eq_refl) as (-> & e & He & Hval).
    rewrite with_audio_same.
    destruct audio as [|b bs] eqn:Haudio; [done|]. rewrite <- Haudio in *.
    intros Hret. apply (Hrun audio sys now e); try done. by rewrite Haudio.
  - destruct (Main.synthesize_speech sv resp) as [[|b bs]|] eqn:Hsyn;
      [done| |done].
    set (now' := now + Z.of_nat (Main.synthesis_time sv)).
    pose proof (set_ok_lookup dump_audio now' (Main.audio_faults sv) audio_key
                  (b :: bs) ac (Main.audio_files sys)) as Hset.
    destruct (Cache.set dump_audio now' (Main.audio_faults sv) audio_key
                (b :: bs) ac (Main.audio_files sys)) as [[res ac'] d'].
    destruct res as [[]|err]; [|done]. simpl in Hset.
    intros Hret.
    by apply (Hrun (b :: bs) (Main.with_audio sys ac' d') now'
                (Cache.Entry (b :: bs) now')); try done; try apply Hset.
Qed.

Lemma process_comment_hit info sv c sys now msg e :
  Main.message c = Some msg ->
  Cache.dict_get (msg +:+ "_" +:+ default "" (Main.user_id c))
    (Cache.cache (Main.response_cache sys)) = Some e ->
  now - Cache.timestamp e < Cache.ttl (Main.response_cache sys) ->
  Cache.value e ≠ "" ->
  process_comment info sv c sys now = voice_reply info sv (Cache.value e) sys now.
Proof.
  intros Hmsg He Hfresh Hne. unfold Main.process_comment.
  rewrite Hmsg, (get_hit_entry now _ _ e He Hfresh), with_responses_same.
  by rewrite decide_False.
Qed.

Lemma process_comment_spec info later_info sv later_sv c sys now r :
  Main.returned (process_comment info sv c sys now) = Some r ->
  let out := process_comment info sv c sys now in
  ∃ msg, Main.message c = Some msg
    ∧ Main.response r ≠ "" ∧ Main.has_audio r = true
    ∧ (∃ path,
         Video.get_talking_video joinpath
           (Z.of_nat (py_len (Main.response r)))
           (Main.video_manager sys) = Ok path
         ∧ path_exists path = true
         ∧ Main.video_info r !! "path" = Some (PStr path))
    ∧ ∃ e ea,
        Cache.dict_get (msg +:+ "_" +:+ default "" (Main.user_id c))
          (Cache.cache (Main.response_cache (Main.after out))) = Some e
        ∧ Cache.value e = Main.response r
        ∧ Cache.dict_get ("audio_" +:+ Main.response r)
            (Cache.cache (Main.audio_cache (Main.after out))) = Some ea
        ∧ Cache.value ea ≠ []
        ∧ Main.synced out = Some (Main.video_info r, Cache.value ea)
        ∧ ∀ later,
            later - Cache.timestamp e
              < Cache.ttl (Main.response_cache (Main.after out)) ->
            later - Cache.timestamp ea
              < Cache.ttl (Main.audio_cache (Main.after out)) ->
            process_comment later_info later_sv c (Main.after out) later
            = {| Main.returned := Some r; Main.synced := Main.synced out;
                 Main.after := Main.after out; Main.clock := later |}.
Proof.
  intros Hret out.
  destruct (Main.message c) as [msg|] eqn:Hmsg;
    [|unfold Main.process_comment in Hret; by rewrite Hmsg in Hret].
  exists msg. split; [done|].
  set (key := msg +:+ "_" +:+ default "" (Main.user_id c)).
  assert (Hrun : ∀ resp sys1 now1 e,
            resp ≠ "" ->
            out = voice_reply info sv resp sys1 now1 ->
            Main.video_manager sys1 = Main.video_manager sys ->
            Cache.dict_get key (Cache.cache (Main.response_cache sys1)) = Some e ->
            Cache.value e = resp ->
            Main.response r ≠ "" ∧ Main.has_audio r = true
            ∧ (∃ path,
                 Video.get_talking_video joinpath
                   (Z.of_nat (py_len (Main.response r)))
                   (Main.video_manager sys) = Ok path
                 ∧ path_exists path = true
                 ∧ Main.video_info r !! "path" = Some (PStr path))
            ∧ ∃ e ea,
                Cache.dict_get key
                  (Cache.cache (Main.response_cache (Main.after out))) = Some e
                ∧ Cache.value e = Main.response r
                ∧ Cache.dict_get ("audio_" +:+ Main.response r)
                    (Cache.cache (Main.audio_cache (Main.after out))) = Some ea
                ∧ Cache.value ea ≠ []
                ∧ Main.synced out = Some (Main.video_info r, Cache.value ea)
                ∧ ∀ later,
                    later - Cache.timestamp e
                      < Cache.ttl (Main.response_cache (Main.after out)) ->
                    later - Cache.timestamp ea
                      < Cache.ttl (Main.audio_cache (Main.after out)) ->
                    process_comment later_info later_sv c (Main.after out) later
                    = {| Main.returned := Some r; Main.synced := Main.synced out;
                         Main.after := Main.after out; Main.clock := later |}).
  { intros resp sys1 now1 e Hne Hout Hvm He Hval.
    assert (Hret1 : Main.returned (voice_reply info sv resp sys1 now1) = Some r)
      by (by rewrite <- Hout).
    destruct (voice_reply_spec info later_info sv later_sv resp sys1 now1 r Hret1)
      as (Hr & Ha & Hrc' & Hrf' & Hpath & ea & Hea & Hane & Hs & Hagain).
    rewrite <- Hout in Hrc', Hrf', Hea, Hs, Hagain.
    rewrite Hr. split_and!; try done.
    - by rewrite <- Hvm.
    - exists e, ea. rewrite Hrc'. split_and!; try done.
      intros later Hfresh Hafresh.
      rewrite (process_comment_hit later_info later_sv c (Main.after out) later
                 msg e); try done.
      + rewrite Hval. by apply Hagain.
      + by rewrite Hrc'.
      + by rewrite Hrc'.
      + by rewrite Hval. }
  subst out. unfold Main.process_comment in Hret |- *. rewrite Hmsg in Hret |- *.
  fold key in Hret |- *. revert Hrun. unfold Main.process_comment.
  rewrite Hmsg. fold key.
  destruct (Cache.get now key (Main.response_cache sys)) as [cached rc] eqn:Hget.
  destruct cached as [resp|].
  - pose proof (get_hit_inv now key (Main.response_cache sys) resp) as Hinv.
    rewrite Hget in Hinv. simpl in Hinv.
    destruct (Hinv eq_refl) as (-> & e & He & Hval).
    rewrite with_responses_same in Hret |- *.
    destruct (decide (resp = "")) as [|Hne]; [done|].
    intros Hrun. by apply (Hrun resp sys now e).
  - destruct (Main.generate_response sv msg _) as [resp|]; [|done].
    destruct (decide (resp = "")) as [|Hne]; [done|].
    set (now' := now + Z.of_nat (Main.generation_time sv)) in *.
    pose proof (set_ok_lookup dump_responses now' (Main.response_faults sv) key
                  resp rc (Main.response_files sys)) as Hset.
    destruct (Cache.set dump_responses now' (Main.response_faults sv) key resp
                rc (Main.response_files sys)) as [[res rc'] d'].
    destruct res as [[]|err]; [|done]. simpl in Hset.
    intros Hrun.
    by apply (Hrun resp (Main.with_responses sys rc' d') now'
                (Cache.Entry resp now')); try done; try apply Hset.
Qed.

End ProcessComment.

(** X21: a reply that [process_comment] returns has gone through every
    stage: its text is not empty and is in the response cache under the key of
    the comment, its audio is not empty, is in the audio cache under the key of
    the text and is what was handed to [sync_media], and its video is the clip
    that [get_talking_video] picks for the number of characters of the text,
    a file that exists. *)
Theorem returned_reply_is_cached_and_playable
    (joinpath : string -> string -> string) (path_name : string -> string)
    (path_exists : string -> bool)
    (get_video_info : string -> option (gmap string pyval))
    (dump_responses : Cache.dict string -> string)
    (dump_audio : Cache.dict (list Byte.byte) -> string)
    (sv : Main.services) (c : Main.comment) (sys : Main.system) (now : Z)
    (r : Main.reply) :
  let out := Main.process_comment joinpath path_name path_exists get_video_info
               dump_responses dump_audio sv c sys now in
  Main.returned out = Some r ->
  ∃ msg e ea path,
    Main.message c = Some msg
    ∧ Main.response r ≠ "" ∧ Main.has_audio r = true
    ∧ Cache.dict_get (msg +:+ "_" +:+ default "" (Main.user_id c))
        (Cache.cache (Main.response_cache (Main.after out))) = Some e
    ∧ Cache.value e = Main.response r
    ∧ Cache.dict_get ("audio_" +:+ Main.response r)
        (Cache.cache (Main.audio_cache (Main.after out))) = Some ea
    ∧ Cache.value ea ≠ []
    ∧ Main.synced out = Some (Main.video_info r, Cache.value ea)
    ∧ Video.get_talking_video joinpath
        (Z.of_nat (py_len (Main.response r))) (Main.video_manager sys)
      = Ok path
    ∧ path_exists path = true
    ∧ Main.video_info r !! "path" = Some (PStr path).
Proof.
  intros out Hret.
  destruct (process_comment_spec joinpath path_name path_exists dump_responses
              dump_audio get_video_info get_video_info sv sv c sys now r Hret)
    as (msg & Hmsg & Hne & Hha & (path & Hp & Hex & Hvi)
        & e & ea & He & Hv & Hea & Hane & Hs & _).
  exists msg, e, ea, path. by split_and!.
Qed.

(** X22: once [process_comment] has returned a reply for a comment, a later
    call for the same comment on the system it left, made while the response
    entry and the audio entry it used are within their time-to-live, returns
    the same reply, hands the same pair to [sync_media] and leaves the system
    as it is, whatever the generator, the synthesizer and [get_video_info]
    would answer by then: none of them is consulted or waited for. *)
Theorem repeated_comment_is_served_from_the_caches
    (joinpath : string -> string -> string) (path_name : string -> string)
    (path_exists : string -> bool)
    (get_video_info later_info : string -> option (gmap string pyval))
    (dump_responses : Cache.dict string -> string)
    (dump_audio : Cache.dict (list Byte.byte) -> string)
    (sv later_sv : Main.services) (c : Main.comment) (sys : Main.system)
    (now later : Z) (r : Main.reply) :
  let out := Main.process_comment joinpath path_name path_exists get_video_info
               dump_responses dump_audio sv c sys now in
  Main.returned out = Some r ->
  (∀ e, Cache.dict_get
          (default "" (Main.message c) +:+ "_" +:+ default "" (Main.user_id c))
          (Cache.cache (Main.response_cache (Main.after out))) = Some e ->
        later - Cache.timestamp e
          < Cache.ttl (Main.response_cache (Main.after out))) ->
  (∀ e, Cache.dict_get ("audio_" +:+ Main.response r)
          (Cache.cache (Main.audio_cache (Main.after out))) = Some e ->
        later - Cache.timestamp e < Cache.ttl (Main.audio_cache (Main.after out))) ->
  Main.process_comment joinpath path_name path_exists later_info dump_responses
    dump_audio later_sv c (Main.after out) later
  = {| Main.returned := Some r; Main.synced := Main.synced out;
       Main.after := Main.after out; Main.clock := later |}.
Proof.
  intros out Hret Hfresh Hafresh.
  destruct (process_comment_spec joinpath path_name path_exists dump_responses
              dump_audio get_video_info later_info sv later_sv c sys now r Hret)
    as (msg & Hmsg & _ & _ & _ & e & ea & He & _ & Hea & _ & _ & Hagain).
  rewrite Hmsg in Hfresh. simpl in Hfresh.
  apply Hagain; [by apply Hfresh|by apply Hafresh].
Qed.

Lemma preloaded_asset_is_served_from_cache_witness :
  let cache := Assets.preload_videos Sample.joinpath Studio.path_exists
                 Studio.get_video_info "videos" Sample.catalog ∅ in
  Assets.prepare_video Studio.path_name Studio.path_exists Studio.unreadable
    (Sample.joinpath "videos" "short.mp4") cache
  = (Some (<["path" := PStr (Sample.joinpath "videos" "short.mp4")]>
             {[ "type" := PStr "video"; "duration" := PInt 5 ]}),
     cache).
Proof.
  apply (preloaded_asset_is_served_from_cache Sample.joinpath Studio.path_name
           Studio.path_exists Studio.get_video_info Studio.unreadable "videos"
           Sample.catalog "short.mp4"
           {[ "type" := PStr "video"; "duration" := PInt 5 ]});
    by vm_compute.
Defined.

Lemma check_status_covers_the_scheduler_witness :
  Studio.path_exists "videos/short.mp4" = true.
Proof.
  apply (proj1 (check_status_covers_the_scheduler Sample.joinpath
                  Studio.path_exists (Video.Mk "videos" Sample.catalog 0 0)
                  ltac:(by vm_compute)) 10 "videos/short.mp4").
  by vm_compute.
Defined.

Lemma returned_reply_is_cached_and_playable_witness :
  let out := Main.process_comment Sample.joinpath Studio.path_name
               Studio.path_exists Studio.get_video_info Sample.dumps
               Studio.dump_audio Studio.services Studio.comment Studio.system
               100 in
  ∃ msg e ea path,
    Main.message Studio.comment = Some msg
    ∧ Main.response Studio.reply ≠ "" ∧ Main.has_audio Studio.reply = true
    ∧ Cache.dict_get (msg +:+ "_" +:+ default "" (Main.user_id Studio.comment))
        (Cache.cache (Main.response_cache (Main.after out))) = Some e
    ∧ Cache.value e = Main.response Studio.reply
    ∧ Cache.dict_get ("audio_" +:+ Main.response Studio.reply)
        (Cache.cache (Main.audio_cache (Main.after out))) = Some ea
    ∧ Cache.value ea ≠ []
    ∧ Main.synced out = Some (Main.video_info Studio.reply, Cache.value ea)
    ∧ Video.get_talking_video Sample.joinpath
        (Z.of_nat (py_len (Main.response Studio.reply)))
        (Main.video_manager Studio.system)
      = Ok path
    ∧ Studio.path_exists path = true
    ∧ Main.video_info Studio.reply !! "path" = Some (PStr path).
Proof.
  apply (returned_reply_is_cached_and_playable Sample.joinpath Studio.path_name
           Studio.path_exists Studio.get_video_info Sample.dumps
           Studio.dump_audio Studio.services Studio.comment Studio.system 100
           Studio.reply).
  by vm_compute.
Defined.

(** The length that picks the clip is the number of characters of the reply:
    a reply of twenty characters gets the clip of the short replies, though
    its text has sixty bytes. *)
Example reply_length_counts_characters :
  py_len Studio.greeting = 20%nat
  ∧ String.length Studio.greeting = 60%nat
  ∧ (Main.returned
       (Main.process_comment Sample.joinpath Studio.path_name
          Studio.path_exists Studio.get_video_info Sample.dumps
          Studio.dump_audio Studio.greeter Studio.comment Studio.system 100)
     ≫= λ r, Main.video_info r !! "path")
    = Some (PStr "videos/short.mp4").
Proof. by vm_compute. Qed.

Lemma repeated_comment_is_served_from_the_caches_witness :
  let out := Main.process_comment Sample.joinpath Studio.path_name
               Studio.path_exists Studio.get_video_info Sample.dumps
               Studio.dump_audio Studio.services Studio.comment Studio.system
               100 in
  Main.process_comment Sample.joinpath Studio.path_name Studio.path_exists
    Studio.unreadable Sample.dumps Studio.dump_audio Studio.silent
    Studio.comment (Main.after out) 3000
  = {| Main.returned := Some Studio.reply; Main.synced := Main.synced out;
       Main.after := Main.after out; Main.clock := 3000 |}.
Proof.
  apply (repeated_comment_is_served_from_the_caches Sample.joinpath
           Studio.path_name Studio.path_exists Studio.get_video_info
           Studio.unreadable Sample.dumps Studio.dump_audio Studio.services
           Studio.silent Studio.comment Studio.system 100 3000 Studio.reply).
  - by vm_compute.
  - intros e. vm_compute. intros [= <-]. reflexivity.
  - intros e. vm_compute. intros [= <-]. reflexivity.
Defined.

(** ** The idle loop *)

Section IdleLoopFacts.

Variable joinpath : string -> string -> string.
Variable path_name : string -> string.
Variable path_exists : string -> bool.
Variable get_video_info : string -> option (gmap string pyval).

Lemma get_next_idle_video_cfg (self : Video.VideoManager) :
  Video.cfg (Video.get_next_idle_video joinpath self).2 = Video.cfg self.
Proof.
  unfold Video.get_next_idle_video.
  destruct (Video.next_idle_try joinpath self) as [[[path flag] self1]|e] eqn:Htry;
    simpl; [|done].
  unfold Video.next_idle_try in Htry.
  destruct (Video.idle_pattern (Video.cfg self)) as [patterns|];
    simpl in Htry; [|done].
  destruct (py_index patterns (Video.current_idle_index self)) as [st|];
    simpl in Htry; [|done].
  destruct (st !! "video") as [key|]; simpl in Htry; [|done].
  destruct (Video.idle_lookup (Video.idle (Video.cfg self)) key) as [name|];
    simpl in Htry; [|done].
  destruct (st !! "repeat") as [r|]; simpl in Htry; [|done].
  destruct (Video.minus_one r) as [last|]; simpl in Htry; [|done].
  by destruct (Video.current_repeat self >=? last); injection Htry as <- <- <-.
Qed.

Lemma get_next_idle_video_ok (self : Video.VideoManager) (fallback : string) :
  Video.idle (Video.cfg self) !! "00" = Some fallback ->
  ∃ path flag, (Video.get_next_idle_video joinpath self).1 = Ok (path, flag).
Proof.
  intros H00. unfold Video.get_next_idle_video.
  destruct (Video.next_idle_try joinpath self) as [[[path flag] self1]|e];
    simpl; [by eauto|].
  unfold Video.idle_fallback. rewrite H00. simpl. by eauto.
Qed.

Lemma iteration_ok (bound : Z) (l : IdleLoop.looping) (fallback : string) :
  Video.idle (Video.cfg (IdleLoop.manager l)) !! "00" = Some fallback ->
  IdleLoop.durations_within get_video_info (λ d, d <= bound) (IdleLoop.infos l) ->
  ∃ l', IdleLoop.iteration joinpath path_name path_exists get_video_info l = Ok l'
    ∧ Video.cfg (IdleLoop.manager l') = Video.cfg (IdleLoop.manager l)
    ∧ IdleLoop.durations_within get_video_info (λ d, d <= bound)
        (IdleLoop.infos l')
    ∧ IdleLoop.clock l <= IdleLoop.clock l' <= IdleLoop.clock l + Z.max 1 bound.
Proof.
  intros H00 [Hknown Hnew]. unfold IdleLoop.iteration.
  pose proof (get_next_idle_video_cfg (IdleLoop.manager l)) as Hcfg.
  destruct (get_next_idle_video_ok (IdleLoop.manager l) fallback H00)
    as (path & flag & Hok).
  destruct (Video.get_next_idle_video joinpath (IdleLoop.manager l))
    as [r manager']. simpl in Hcfg, Hok. subst r.
  unfold Assets.prepare_video.
  destruct (path_exists path).
  - destruct (IdleLoop.infos l !! path_name path) as [cached|] eqn:Hc.
    + destruct (Hknown _ _ Hc) as (d & Hd & Hb).
      unfold IdleLoop.sleep_for. rewrite lookup_insert_ne by done. rewrite Hd.
      eexists. split; [done|]. simpl. split_and!; try done; lia.
    + unfold Assets.truthy_info.
      destruct (get_video_info path) as [info|] eqn:Hinfo.
      * destruct (decide (info = ∅)).
        -- eexists. split; [done|]. simpl. split_and!; try done; lia.
        -- destruct (Hnew _ _ Hinfo) as (d & Hd & Hb).
           unfold IdleLoop.sleep_for. rewrite lookup_insert_ne by done.
           rewrite Hd. eexists. split; [done|]. simpl.
           split_and!; try done; try lia.
           split; [|done]. intros name info' Hlook.
           destruct (decide (name = path_name path)) as [->|Hne].
           ++ rewrite lookup_insert_eq in Hlook. injection Hlook as <-.
              exists d. by rewrite lookup_insert_ne.
           ++ rewrite lookup_insert_ne in Hlook by done. by eapply Hknown.
      * eexists. split; [done|]. simpl. split_and!; try done; lia.
  - eexists. split; [done|]. simpl. split_and!; try done; lia.
Qed.

End IdleLoopFacts.

(** X23: with the default idle asset configured and a number as duration in
    every metadata dict, the idle loop is never ended by an exception: any
    number of passes completes, the configuration is kept, the clock never
    goes back, and a pass takes at most the longest duration, or 1 where no
    duration is that long. *)
Theorem idle_loop_keeps_running
    (joinpath : string -> string -> string) (path_name : string -> string)
    (path_exists : string -> bool)
    (get_video_info : string -> option (gmap string pyval))
    (bound : Z) (n : nat) (l : IdleLoop.looping) (fallback : string) :
  Video.idle (Video.cfg (IdleLoop.manager l)) !! "00" = Some fallback ->
  IdleLoop.durations_within get_video_info (λ d, d <= bound) (IdleLoop.infos l) ->
  ∃ l', IdleLoop.run_idle_loop joinpath path_name path_exists get_video_info n l
        = IdleLoop.Running l'
    ∧ Video.cfg (IdleLoop.manager l') = Video.cfg (IdleLoop.manager l)
    ∧ IdleLoop.clock l <= IdleLoop.clock l'
        <= IdleLoop.clock l + Z.of_nat n * Z.max 1 bound.
Proof.
  revert l. induction n as [|n IH]; intros l H00 Hd.
  - exists l. simpl. split_and!; try done; lia.
  - destruct (iteration_ok joinpath path_name path_exists get_video_info bound l
                fallback H00 Hd) as (l1 & Hit & Hcfg & Hd1 & Hclock).
    cbn [IdleLoop.run_idle_loop]. rewrite Hit.
    destruct (IH l1) as (l' & Hrun & Hcfg' & Hclock'); [by rewrite Hcfg|done|].
    exists l'. split_and!; try done; try congruence; lia.
Qed.

Lemma idle_loop_keeps_running_witness :
  ∃ l', IdleLoop.run_idle_loop Sample.joinpath Studio.path_name
          Studio.path_exists Studio.get_video_info 4
          (IdleLoop.Looping (Video.Mk "videos" Sample.catalog 0 0) ∅ 100)
        = IdleLoop.Running l'
    ∧ Video.cfg (IdleLoop.manager l') = Sample.catalog
    ∧ 100 <= IdleLoop.clock l' <= 100 + Z.of_nat 4 * Z.max 1 5.
Proof.
  apply (idle_loop_keeps_running Sample.joinpath Studio.path_name
           Studio.path_exists Studio.get_video_info 5 4
           (IdleLoop.Looping (Video.Mk "videos" Sample.catalog 0 0) ∅ 100)
           "idle0.mp4").
  - by vm_compute.
  - split.
    + intros name info Hlook. simpl in Hlook. by rewrite lookup_empty in Hlook.
    + intros path info [= <-]. exists 5. split; [by vm_compute|lia].
Defined.

(** X24: without a default idle asset the idle loop does not survive a step
    it cannot resolve: the handler of [get_next_idle_video] raises
    [KeyError], and [run_idle_loop] catches it and returns on that pass,
    however many passes were still to come. *)
Theorem idle_loop_ends_without_default
    (joinpath : string -> string -> string) (path_name : string -> string)
    (path_exists : string -> bool)
    (get_video_info : string -> option (gmap string pyval))
    (n : nat) (l : IdleLoop.looping) (e : exn) :
  Video.next_idle_try joinpath (IdleLoop.manager l) = Raise e ->
  Video.idle (Video.cfg (IdleLoop.manager l)) !! "00" = None ->
  IdleLoop.run_idle_loop joinpath path_name path_exists get_video_info (S n) l
  = IdleLoop.Ended KeyError.
Proof.
  intros Htry H00. cbn [IdleLoop.run_idle_loop].
  unfold IdleLoop.iteration, Video.get_next_idle_video, Video.idle_fallback.
  by rewrite Htry, H00.
Qed.

Lemma idle_loop_ends_without_default_witness :
  IdleLoop.run_idle_loop Sample.joinpath Studio.path_name Studio.path_exists
    Studio.get_video_info 3
    (IdleLoop.Looping (Video.Mk "videos" Sample.catalog_without_default 0 0)
       ∅ 100)
  = IdleLoop.Ended KeyError.
Proof.
  apply (idle_loop_ends_without_default Sample.joinpath Studio.path_name
           Studio.path_exists Studio.get_video_info 2
           (IdleLoop.Looping
              (Video.Mk "videos" Sample.catalog_without_default 0 0) ∅ 100)
           KeyError); by vm_compute.
Defined.
